(** * The AssemblyAI recognition adapter of the voice pipeline

    A shallow embedding of [components/typescript/src/assemblyai/stt.ts]
    (class [AssemblyAISTT]) and of the secret loader [getSecrets] of the
    Lambda entry point, with the properties the specification states about
    them.

    Conventions of the embedding:
    - a JavaScript value that comes out of [JSON.parse] is a [JSValue]; a
      property that may be missing is a [Field] ([Undefined] or a value);
    - [try]/[catch] and the mutation of [this], of the console and of the
      sockets are threaded through a state-and-exception monad [M];
    - an [async] method is cut at its [await]s: the part after an [await] is
      a continuation stored on the promise (or the timer) it waits for, and
      runs when the runtime delivers the corresponding event;
    - everything the outside can see (socket creation, frames sent, socket
      teardown, timers armed, console lines, settled calls, yielded events)
      is appended, in order, to the [trace] of the world. *)

From Stdlib Require Import ZArith String Ascii List Bool Lia.
From Stdlib Require Import DecimalString.
From stdpp Require Import base option list gmap strings.

Import ListNotations.
Local Open Scope string_scope.
Local Open Scope Z_scope.
Local Open Scope list_scope.

Set Warnings "-register-all".

(** ** JavaScript values *)

Module JS.

(** What [JSON.parse] can return. A JSON number is kept as an integer;
    fractional numbers and numbers beyond the safe integers are outside the
    model. An object lists its own properties, each name once, in the order
    [Object.entries] enumerates them. Characters are 8-bit. *)
Inductive JSValue : Type :=
| JNull
| JBool (b : bool)
| JNum (n : Z)
| JStr (s : string)
| JArr (items : list JSValue)
| JObj (fields : list (string * JSValue)).

(** The result of reading a property: [undefined] or a value. *)
Inductive Field : Type :=
| Undefined
| Val (v : JSValue).

(** What a [catch] clause of the adapter can receive. *)
Inductive Exn : Type :=
| SyntaxError                 (* JSON.parse on text that is not JSON *)
| TypeError                   (* property read on null *)
| Error (message : Field)     (* new Error(x) with a value read from a message *)
| ErrorMsg (message : string) (* new Error("...") with a literal *)
| SocketError (reason : string). (* raised or reported by the socket library *)

Fixpoint assoc (k : string) (fs : list (string * JSValue)) : Field :=
  match fs with
  | [] => Undefined
  | (k', v) :: rest => if String.eqb k k' then Val v else assoc k rest
  end.

(** [v.k] for the property names the adapter reads ([type], [transcript],
    [turn_is_formatted], [error]): none of them is an own or inherited
    property of a number, boolean, string or array, so only objects answer;
    reading a property of [null] throws. *)
Definition get_prop (v : JSValue) (k : string) : Exn + Field :=
  match v with
  | JNull => inl TypeError
  | JObj fs => inr (assoc k fs)
  | _ => inr Undefined
  end.

(** ToBoolean. *)
Definition truthy_value (v : JSValue) : bool :=
  match v with
  | JNull => false
  | JBool b => b
  | JNum n => negb (n =? 0)
  | JStr s => negb (String.eqb s "")
  | JArr _ | JObj _ => true
  end.

Definition truthy (f : Field) : bool :=
  match f with
  | Undefined => false
  | Val v => truthy_value v
  end.

(** [f === "lit"]. *)
Definition strict_eq_str (f : Field) (lit : string) : bool :=
  match f with
  | Val (JStr s) => String.eqb s lit
  | _ => false
  end.

(** ToBoolean on an optional string ([undefined] and the empty string are
    falsy). *)
Definition truthy_str (o : option string) : bool :=
  match o with
  | Some s => negb (String.eqb s "")
  | None => false
  end.

(** [a || b] on optional strings. *)
Definition or_str (a b : option string) : option string :=
  if truthy_str a then a else b.

(** [Number.prototype.toString] on an integer that a JavaScript number
    holds exactly and prints in plain digits (a safe integer, below 2^53 in
    absolute value). Larger and fractional numbers are outside this model. *)
Definition number_toString (n : Z) : string :=
  NilZero.string_of_int (Z.to_int n).

Definition boolean_toString (b : bool) : string :=
  if b then "true" else "false".

(** An object has an own property [k]. *)
Definition has_own (k : string) (fs : list (string * JSValue)) : bool :=
  match assoc k fs with
  | Undefined => false
  | Val _ => true
  end.

(** ToString on a value that came out of [JSON.parse], as a template
    literal, [new Error(x)] and an assignment to [process.env] apply it. A
    plain object prints as [[object Object]] through the inherited
    [toString]; an object with an own property [toString] cannot be
    converted (the property is not callable, and the inherited [valueOf]
    returns the object), which throws a TypeError: the result is [None]
    then. An array joins the conversions of its elements with commas,
    [null] counting as the empty string. *)
Fixpoint js_ToString (v : JSValue) : option string :=
  match v with
  | JNull => Some "null"
  | JBool b => Some (boolean_toString b)
  | JNum n => Some (number_toString n)
  | JStr s => Some s
  | JObj fs => if has_own "toString" fs then None else Some "[object Object]"
  | JArr items =>
      (fix join (l : list JSValue) : option string :=
         match l with
         | [] => Some ""
         | x :: rest =>
             match (match x with JNull => Some "" | _ => js_ToString x end) with
             | None => None
             | Some a =>
                 match rest with
                 | [] => Some a
                 | _ :: _ =>
                     match join rest with
                     | None => None
                     | Some b => Some (a ++ "," ++ b)
                     end
                 end
             end
         end) items
  end%string.

Definition field_ToString (f : Field) : option string :=
  match f with
  | Undefined => Some "undefined"
  | Val v => js_ToString v
  end.

(** The conversion to a string succeeds. *)
Definition stringifies (f : Field) : bool :=
  match field_ToString f with
  | None => false
  | Some _ => true
  end.

End JS.
Import JS.

(** ** Events *)

(** Modelled from the spec: the [VoiceAgentEvent] union of [../types], which
    is not part of the sources at hand; section 3 of the specification lists
    its eight kinds. *)
Inductive EventKind : Type :=
| audio_in | stt_chunk | stt_output | agent_chunk
| tool_call | agent_end | tts_chunk | error.

(** The object literals the recognition adapter pushes:
    [{ type, transcript, ts }]. *)
Record VoiceAgentEvent : Type := mkEvent {
  type : EventKind;
  transcript : Field;
  ts : Z
}.

Definition is_kind (k : EventKind) (e : VoiceAgentEvent) : bool :=
  match k, type e with
  | audio_in, audio_in | stt_chunk, stt_chunk | stt_output, stt_output
  | agent_chunk, agent_chunk | tool_call, tool_call | agent_end, agent_end
  | tts_chunk, tts_chunk | error, error => true
  | _, _ => false
  end.

(** ** Constructor

    [process.env] is a finite map from names to strings. *)

Record AssemblyAISTTOptions : Type := mkOptions {
  opt_apiKey : option string;
  opt_sampleRate : option Z;
  opt_formatTurns : option bool
}.

(** The three configuration fields of an instance. *)
Record Config : Type := mkConfig {
  apiKey : string;
  sampleRate : Z;
  formatTurns : bool
}.

Definition ASSEMBLYAI_API_KEY : string := "ASSEMBLYAI_API_KEY".

(** [options.sampleRate || 16000]. *)
Definition or_number (a : option Z) (b : Z) : Z :=
  match a with
  | Some n => if n =? 0 then b else n
  | None => b
  end.

(** [options.formatTurns || true]. *)
Definition or_bool (a : option bool) (b : bool) : bool :=
  match a with
  | Some true => true
  | _ => b
  end.

Definition constructor (options : AssemblyAISTTOptions) (env : gmap string string)
  : Exn + Config :=
  let this_apiKey :=
    default "" (or_str (or_str (opt_apiKey options) (env !! ASSEMBLYAI_API_KEY)) (Some "")) in
  let this_sampleRate := or_number (opt_sampleRate options) 16000 in
  let this_formatTurns := or_bool (opt_formatTurns options) true in
  if negb (truthy_str (Some this_apiKey)) then
    inl (ErrorMsg "AssemblyAI API key is required")
  else
    inr {| apiKey := this_apiKey;
           sampleRate := this_sampleRate;
           formatTurns := this_formatTurns |}.

(** The URL the [_connection] getter dials. [URLSearchParams] leaves digits,
    letters, [-] and [_] as they are. *)
Definition connection_url (c : Config) : string :=
  "wss://streaming.assemblyai.com/v3/ws?" ++
  "sample_rate=" ++ number_toString (sampleRate c) ++
  "&format_turns=" ++ boolean_toString (formatTurns c).


(** ** The output queue *)

(** Modelled from the spec: [writableIterator] of [../utils], which is not
    part of the sources at hand. Sections 5 and 9 of the specification
    describe it: vendor notifications are deposited into a queue that the
    stage drains as a lazy sequence, first in, first out. The specification
    names no capacity and no overflow policy and the adapter's [push] is
    synchronous, so no push is refused here. [cancel] ends the sequence: the
    events already queued are still delivered, then the iterator is done. *)
Record WritableIterator : Type := mkIterator {
  items : list VoiceAgentEvent;
  cancelled : bool
}.

Definition writableIterator : WritableIterator :=
  {| items := []; cancelled := false |}.

Definition iterator_push (ev : VoiceAgentEvent) (q : WritableIterator) : WritableIterator :=
  {| items := items q ++ [ev]; cancelled := cancelled q |}.

Definition iterator_cancel (q : WritableIterator) : WritableIterator :=
  {| items := items q; cancelled := true |}.

Inductive IteratorResult : Type :=
| Yield (ev : VoiceAgentEvent)
| Done
| Waiting.

Definition iterator_next (q : WritableIterator) : IteratorResult * WritableIterator :=
  match items q with
  | ev :: rest => (Yield ev, {| items := rest; cancelled := cancelled q |})
  | [] => (if cancelled q then Done else Waiting, q)
  end.

(** ** Sockets, promises and the world *)

Inductive ReadyState : Type := CONNECTING | OPEN | CLOSING | CLOSED.

Inductive Frame : Type :=
| Binary (bytes : list Byte.byte)
| Text (payload : string).

(** The state of the promise the [_connection] getter builds around a socket. *)
Inductive PromiseState : Type :=
| Unsettled
| Fulfilled
| Rejected (reason : Exn).

(** The rest of an [async] method after [await]ing the connection. *)
Inductive Waiter : Type :=
| SendAudioK (buffer : list Byte.byte) (* conn.send(buffer) *)
| CloseK.                              (* the body of close() after its first await *)

(** One [new WebSocket(...)] together with the promise that wraps it. *)
Record Conn : Type := mkConn {
  url : string;
  authorization : string;
  readyState : ReadyState;
  promise : PromiseState;
  waiters : list Waiter
}.

(** Console lines, one constructor per [console.log]/[console.error] site. *)
Inductive LogLine : Type :=
| DebugReceivedType (ty : Field)
| DebugBegin
| DebugTurn (transcript formatted : Field)
| DebugEmitting (transcript : Field)
| DebugTermination
| DebugSendingTerminate
| DebugTerminateError (e : Exn)
| ConsoleError (e : Exn).

Inductive Call : Type :=
| SendAudioCall (buffer : list Byte.byte)
| CloseCall.

Inductive Effect : Type :=
| NewWebSocket (id : nat) (url authorization : string)
| WsSend (id : nat) (f : Frame)
| WsClose (id : nat)
| SetTimeout (ms : Z) (id : nat)
| Console (line : LogLine)
| Settled (c : Call) (outcome : Exn + unit)
| Yielded (ev : VoiceAgentEvent).

Record World : Type := mkWorld {
  this : Config;
  _bufferIterator : WritableIterator;
  _connectionPromise : option nat;   (* null, or the socket the promise wraps *)
  sockets : list Conn;               (* every socket created so far, by id *)
  timers : list nat;                 (* grace timers armed by close(): the socket each one closes *)
  clock : Z;                         (* Date.now() *)
  trace : list Effect
}.

(** A fresh instance: what the field initialisers and the constructor leave. *)
Definition new_AssemblyAISTT (c : Config) (now : Z) : World :=
  {| this := c; _bufferIterator := writableIterator; _connectionPromise := None;
     sockets := []; timers := []; clock := now; trace := [] |}.

Definition set_buffer (q : WritableIterator) (w : World) : World :=
  {| this := this w; _bufferIterator := q; _connectionPromise := _connectionPromise w;
     sockets := sockets w; timers := timers w; clock := clock w; trace := trace w |}.

Definition set_connectionPromise (p : option nat) (w : World) : World :=
  {| this := this w; _bufferIterator := _bufferIterator w; _connectionPromise := p;
     sockets := sockets w; timers := timers w; clock := clock w; trace := trace w |}.

Definition set_sockets (l : list Conn) (w : World) : World :=
  {| this := this w; _bufferIterator := _bufferIterator w;
     _connectionPromise := _connectionPromise w;
     sockets := l; timers := timers w; clock := clock w; trace := trace w |}.

Definition set_timers (l : list nat) (w : World) : World :=
  {| this := this w; _bufferIterator := _bufferIterator w;
     _connectionPromise := _connectionPromise w;
     sockets := sockets w; timers := l; clock := clock w; trace := trace w |}.

Definition set_clock (now : Z) (w : World) : World :=
  {| this := this w; _bufferIterator := _bufferIterator w;
     _connectionPromise := _connectionPromise w;
     sockets := sockets w; timers := timers w; clock := now; trace := trace w |}.

Definition add_trace (e : Effect) (w : World) : World :=
  {| this := this w; _bufferIterator := _bufferIterator w;
     _connectionPromise := _connectionPromise w;
     sockets := sockets w; timers := timers w; clock := clock w;
     trace := trace w ++ [e] |}.

Definition set_readyState (r : ReadyState) (c : Conn) : Conn :=
  {| url := url c; authorization := authorization c; readyState := r;
     promise := promise c; waiters := waiters c |}.

Definition set_promise (p : PromiseState) (c : Conn) : Conn :=
  {| url := url c; authorization := authorization c; readyState := readyState c;
     promise := p; waiters := waiters c |}.

Definition set_waiters (l : list Waiter) (c : Conn) : Conn :=
  {| url := url c; authorization := authorization c; readyState := readyState c;
     promise := promise c; waiters := l |}.

(** ** The monad of method and handler bodies *)

Definition M (A : Type) : Type := World -> (Exn + A) * World.

Definition ret {A} (a : A) : M A := fun w => (inr a, w).

Definition bind {A B} (m : M A) (k : A -> M B) : M B :=
  fun w =>
    match m w with
    | (inr a, w') => k a w'
    | (inl e, w') => (inl e, w')
    end.

Definition throw {A} (e : Exn) : M A := fun w => (inl e, w).

(** [try { body } catch (error) { handler }]: what [body] did before it threw
    stays done. *)
Definition try_catch {A} (body : M A) (handler : Exn -> M A) : M A :=
  fun w =>
    match body w with
    | (inr a, w') => (inr a, w')
    | (inl e, w') => handler e w'
    end.

Definition lift {A} (r : Exn + A) : M A := fun w => (r, w).

Definition modify (f : World -> World) : M unit := fun w => (inr tt, f w).

Definition gets {A} (f : World -> A) : M A := fun w => (inr (f w), w).

(** The class instances give the bodies stdpp's [x ← m; k] and [m;; k]. *)
#[global] Instance M_ret : MRet M := @ret.
#[global] Instance M_bind : MBind M := fun A B k m => bind m k.

Definition emit (e : Effect) : M unit := modify (add_trace e).
Definition console_log (l : LogLine) : M unit := emit (Console l).
Definition console_error (e : Exn) : M unit := emit (Console (ConsoleError e)).
Definition Date_now : M Z := gets clock.
Definition buffer_push (ev : VoiceAgentEvent) : M unit :=
  modify (fun w => set_buffer (iterator_push ev (_bufferIterator w)) w).
Definition buffer_cancel : M unit :=
  modify (fun w => set_buffer (iterator_cancel (_bufferIterator w)) w).
Definition settle (c : Call) (outcome : Exn + unit) : M unit :=
  emit (Settled c outcome).

(** ** The socket library, as far as the adapter uses it *)

Definition update_socket (id : nat) (f : Conn -> Conn) : M unit :=
  modify (fun w => set_sockets (alter f id (sockets w)) w).

Definition socket_state (id : nat) : M ReadyState :=
  gets (fun w => default CLOSED (readyState <$> sockets w !! id)).

(** [ws.send(data)] without a callback, as the [ws] package (version 8)
    behaves: it throws while the socket is still connecting, writes a frame
    when it is open, and does nothing once the socket is closing or closed. *)
Definition ws_send (id : nat) (f : Frame) : M unit :=
  st ← socket_state id;
  match st with
  | CONNECTING => throw (SocketError "WebSocket is not open: readyState 0 (CONNECTING)")
  | OPEN => emit (WsSend id f)
  | CLOSING | CLOSED => ret tt
  end.

(** [ws.close()]: starts the closing handshake of a socket that is not
    already closing or closed. *)
Definition ws_close (id : nat) : M unit :=
  st ← socket_state id;
  match st with
  | CONNECTING | OPEN =>
      update_socket id (set_readyState CLOSING);; emit (WsClose id)
  | CLOSING | CLOSED => ret tt
  end.

(** ** The methods of [AssemblyAISTT] *)

(** Text frames as they arrive: text that [JSON.parse] rejects, or the text
    of a JSON value. *)
Inductive RawData : Type :=
| Garbage (text : string)
| Json (j : JSValue).

Definition JSON_parse (data : RawData) : M JSValue :=
  match data with
  | Garbage _ => throw SyntaxError
  | Json j => ret j
  end.

Definition prop (v : JSValue) (k : string) : M Field := lift (get_prop v k).

(** [`...${x}...`] and [new Error(x)]: the value is converted to a string,
    which may throw. *)
Definition interpolate (f : Field) : M unit :=
  match field_ToString f with
  | None => throw TypeError
  | Some _ => ret tt
  end.

(** The ["message"] handler. The template literals of its [console.log]
    lines convert the fields they print before anything is pushed. *)
Definition on_message (data : RawData) : M unit :=
  try_catch
    (message ← JSON_parse data;
     ty ← prop message "type";
     interpolate ty;;
     console_log (DebugReceivedType ty);;
     if strict_eq_str ty "Begin" then
       console_log DebugBegin
     else if strict_eq_str ty "Turn" then
       tr ← prop message "transcript";
       formatted ← prop message "turn_is_formatted";
       interpolate tr;;
       interpolate formatted;;
       console_log (DebugTurn tr formatted);;
       if truthy formatted then
         if truthy tr then
           interpolate tr;;
           console_log (DebugEmitting tr);;
           now ← Date_now;
           buffer_push {| type := stt_output; transcript := tr; ts := now |}
         else ret tt
       else
         now ← Date_now;
         buffer_push {| type := stt_chunk; transcript := tr; ts := now |}
     else if strict_eq_str ty "Termination" then
       console_log DebugTermination
     else if strict_eq_str ty "Error" then
       err ← prop message "error";
       interpolate err;;
       throw (Error err)
     else ret tt)
    (fun error => console_error error).

(** [JSON.stringify({ terminate_session: true })]. *)
Definition terminate_message : string :=
  let q := String "034"%char EmptyString in
  "{" ++ q ++ "terminate_session" ++ q ++ ":true}".

(** What an [async] method does once the promise it awaited settles. The
    promise each call returned settles with [settle]. *)
Definition resume (id : nat) (k : Waiter) (outcome : Exn + unit) : M unit :=
  match k, outcome with
  | SendAudioK buffer, inr _ =>
      try_catch
        (ws_send id (Binary buffer);; settle (SendAudioCall buffer) (inr tt))
        (fun e => settle (SendAudioCall buffer) (inl e))
  | SendAudioK buffer, inl e => settle (SendAudioCall buffer) (inl e)
  | CloseK, inr _ =>
      armed ← try_catch
        (console_log DebugSendingTerminate;;
         ws_send id (Text terminate_message);;
         emit (SetTimeout 100 id);;
         modify (fun w => set_timers (timers w ++ [id]) w);;
         ret true)
        (fun e => console_log (DebugTerminateError e);; ret false);
      if armed : bool then ret tt
      else ws_close id;; settle CloseCall (inr tt)
  | CloseK, inl e => settle CloseCall (inl e)
  end.

(** [await p] for the promise of socket [id]: wait when it is unsettled, go
    on in the next microtask (before any other event) when it is settled. *)
Definition await (id : nat) (k : Waiter) : M unit :=
  st ← gets (fun w => promise <$> sockets w !! id);
  match st with
  | Some Unsettled => update_socket id (fun c => set_waiters (waiters c ++ [k]) c)
  | Some Fulfilled => resume id k (inr tt)
  | Some (Rejected e) => resume id k (inl e)
  | None => ret tt
  end.

(** The [_connection] getter. *)
Definition _connection : M nat :=
  p ← gets _connectionPromise;
  match p with
  | Some id => ret id
  | None =>
      c ← gets this;
      id ← gets (fun w => length (sockets w));
      modify (fun w => set_sockets (sockets w ++
        [{| url := connection_url c; authorization := apiKey c;
            readyState := CONNECTING; promise := Unsettled; waiters := [] |}]) w);;
      emit (NewWebSocket id (connection_url c) (apiKey c));;
      modify (set_connectionPromise (Some id));;
      ret id
  end.

Definition sendAudio (buffer : list Byte.byte) : M unit :=
  conn ← _connection;
  await conn (SendAudioK buffer).

Definition close : M unit :=
  p ← gets _connectionPromise;
  match p with
  | Some id => await id CloseK
  | None => settle CloseCall (inr tt)
  end.

(** One pull of the consumer of [receiveEvents()], which delegates to the
    buffer iterator. A pull on an empty queue obtains nothing yet. *)
Definition receiveEvents_next : M IteratorResult :=
  q ← gets _bufferIterator;
  let '(r, q') := iterator_next q in
  modify (set_buffer q');;
  match r with
  | Yield ev => emit (Yielded ev);; ret r
  | _ => ret r
  end.

(** ** The handlers the getter registers on a socket *)

Fixpoint run_waiters (id : nat) (outcome : Exn + unit) (ks : list Waiter) : M unit :=
  match ks with
  | [] => ret tt
  | k :: rest => resume id k outcome;; run_waiters id outcome rest
  end.

(** Settle the promise of socket [id] (a promise settles once) and run what
    was waiting for it, in the order the waits began. *)
Definition settle_promise (id : nat) (p : PromiseState) (outcome : Exn + unit) : M unit :=
  c ← gets (fun w => sockets w !! id);
  match c with
  | Some {| promise := Unsettled; waiters := ks |} =>
      update_socket id (fun c => set_waiters [] (set_promise p c));;
      run_waiters id outcome ks
  | _ => ret tt
  end.

(** ["open"]: [resolve(ws)]. *)
Definition on_open (id : nat) : M unit :=
  settle_promise id Fulfilled (inr tt).

(** ["error"]: [this._bufferIterator.cancel(); reject(error)]. *)
Definition on_error (id : nat) (e : Exn) : M unit :=
  buffer_cancel;;
  settle_promise id (Rejected e) (inl e).

(** ["close"]: [this._connectionPromise = null]. *)
Definition on_close : M unit :=
  modify (set_connectionPromise None).

Fixpoint remove_first (id : nat) (l : list nat) : list nat :=
  match l with
  | [] => []
  | x :: rest => if Nat.eqb x id then rest else x :: remove_first id rest
  end.

(** The grace timer of [close()] fires: [ws.close()], and the call returns. *)
Definition on_timeout (id : nat) : M unit :=
  modify (fun w => set_timers (remove_first id (timers w)) w);;
  ws_close id;;
  settle CloseCall (inr tt).

(** ** The runtime: what can happen to an instance, one event at a time *)

Inductive Label : Type :=
| CallSendAudio (buffer : list Byte.byte)
| CallClose
| Pull
| WsOpen (id : nat)
| WsMessage (id : nat) (data : RawData) (now : Z)
| WsError (id : nat) (e : Exn)
| WsClosed (id : nat)
| GraceTimeout (id : nat).

Definition is_state (r s : ReadyState) : bool :=
  match r, s with
  | CONNECTING, CONNECTING | OPEN, OPEN | CLOSING, CLOSING | CLOSED, CLOSED => true
  | _, _ => false
  end.

Definition elem_nat (id : nat) (l : list nat) : bool := existsb (Nat.eqb id) l.

(** The socket library moves the socket to its next state and then calls the
    registered handler; it raises no event on a socket that does not exist or
    is in the wrong state for it, and a timer fires only if it was armed. *)
Definition handle (l : Label) : M unit :=
  match l with
  | CallSendAudio buffer => sendAudio buffer
  | CallClose => close
  | Pull => receiveEvents_next;; ret tt
  | WsOpen id =>
      st ← socket_state id;
      if is_state st CONNECTING then
        update_socket id (set_readyState OPEN);; on_open id
      else ret tt
  | WsMessage id data now =>
      st ← socket_state id;
      if is_state st OPEN || is_state st CLOSING then
        modify (set_clock now);; on_message data
      else ret tt
  | WsError id e =>
      known ← gets (fun w => bool_decide (is_Some (sockets w !! id)));
      st ← socket_state id;
      if (known : bool) && negb (is_state st CLOSED) then
        update_socket id (set_readyState CLOSING);; on_error id e
      else ret tt
  | WsClosed id =>
      known ← gets (fun w => bool_decide (is_Some (sockets w !! id)));
      st ← socket_state id;
      if (known : bool) && negb (is_state st CLOSED) then
        update_socket id (set_readyState CLOSED);; on_close
      else ret tt
  | GraceTimeout id =>
      armed ← gets (fun w => elem_nat id (timers w));
      if armed : bool then on_timeout id else ret tt
  end.

Definition step (l : Label) (w : World) : World := snd (handle l w).

Definition run (ls : list Label) (w : World) : World :=
  foldl (fun w l => step l w) w ls.

(** ** Projections of a trace *)

Definition yielded (t : list Effect) : list VoiceAgentEvent :=
  omap (fun e => match e with Yielded ev => Some ev | _ => None end) t.

(** What reaches the vendor: sockets dialled, frames written, handshakes
    started. *)
Definition is_wire (e : Effect) : bool :=
  match e with
  | NewWebSocket _ _ _ | WsSend _ _ | WsClose _ => true
  | _ => false
  end.

Definition wire (t : list Effect) : list Effect := List.filter is_wire t.

Definition rejections (t : list Effect) : list (Call * Exn) :=
  omap (fun e => match e with Settled c (inl x) => Some (c, x) | _ => None end) t.

Definition count_kind (k : EventKind) (l : list VoiceAgentEvent) : nat :=
  length (List.filter (is_kind k) l).

(** ** Secrets of the Lambda entry point *)

(** What the secrets service answers: a failure, or a response whose
    [SecretString] may be missing. The text is given as [JSON.parse] sees it
    ([Garbage ""] is the empty string). *)
Inductive SecretsResponse : Type :=
| SendFails (e : Exn)
| Response (SecretString : option RawData).

Record Process : Type := mkProcess {
  env : gmap string string;   (* process.env *)
  cachedSecrets : JSValue;    (* null, or whatever JSON.parse returned *)
  fetches : list string       (* SecretId of every GetSecretValue sent *)
}.

(** [Object.entries(v)]: throws on [null]; a number or boolean has no
    entries; a string has one entry per character and an array one per
    element, named by the index; the fields of an object are listed in the
    order [Object.entries] enumerates them. *)
Definition Object_entries (v : JSValue) : option (list (string * JSValue)) :=
  match v with
  | JNull => None
  | JBool _ | JNum _ => Some []
  | JStr s =>
      Some (imap (fun i ch => (number_toString (Z.of_nat i), JStr (String ch EmptyString)))
                 (list_ascii_of_string s))
  | JArr items => Some (imap (fun i x => (number_toString (Z.of_nat i), x)) items)
  | JObj fields => Some fields
  end.

(** A name or value as [setenv] receives it: cut at the first NUL. *)
Fixpoint c_string (s : string) : string :=
  match s with
  | EmptyString => EmptyString
  | String c rest =>
      if Ascii.eqb c "000"%char then EmptyString else String c (c_string rest)
  end.

Fixpoint contains (c : ascii) (s : string) : bool :=
  match s with
  | EmptyString => false
  | String c' rest => Ascii.eqb c c' || contains c rest
  end.

(** A name [setenv] accepts: not empty and without ['=']. *)
Definition settable (name : string) : bool :=
  negb (String.eqb name "") && negb (contains "="%char name).

(** Free of NUL, so that [setenv] receives it whole. *)
Definition plain (s : string) : bool := negb (contains "000"%char s).

(** [process.env[key] = value]: the value is converted to a string, which
    may throw ([None]); a name that [setenv] refuses is silently dropped. *)
Definition process_env_set (key : string) (value : JSValue) (e : gmap string string)
  : option (gmap string string) :=
  match js_ToString value with
  | None => None
  | Some s =>
      Some (if settable (c_string key) then <[c_string key := c_string s]> e else e)
  end.

(** [Object.entries(cachedSecrets).forEach(([key, value]) => process.env[key] = value)]:
    the environment as the loop leaves it, and whether the loop threw. *)
Fixpoint export_entries (entries : list (string * JSValue)) (e : gmap string string)
  : option Exn * gmap string string :=
  match entries with
  | [] => (None, e)
  | (key, value) :: rest =>
      match process_env_set key value e with
      | None => (Some TypeError, e)
      | Some e' => export_entries rest e'
      end
  end.

(** [getSecrets()], given what the secrets service answers if it is asked. *)
Definition getSecrets (response : SecretsResponse) (p : Process)
  : (Exn + JSValue) * Process :=
  if truthy_value (cachedSecrets p) then (inr (cachedSecrets p), p)
  else
    match env p !! "SECRETS_ARN" with
    | Some secretsArn =>
        if String.eqb secretsArn "" then
          (inl (ErrorMsg "SECRETS_ARN environment variable not set"), p)
        else
          let p1 := {| env := env p; cachedSecrets := cachedSecrets p;
                       fetches := fetches p ++ [secretsArn] |} in
          match response with
          | SendFails e => (inl e, p1)
          | Response None | Response (Some (Garbage "")) =>
              (inl (ErrorMsg "Secret value is empty"), p1)
          | Response (Some (Garbage _)) => (inl SyntaxError, p1)
          | Response (Some (Json j)) =>
              match Object_entries j with
              | None =>
                  (inl TypeError,
                   {| env := env p1; cachedSecrets := j; fetches := fetches p1 |})
              | Some entries =>
                  let '(thrown, env') := export_entries entries (env p1) in
                  (match thrown with
                   | Some e => inl e
                   | None => inr j
                   end,
                   {| env := env'; cachedSecrets := j; fetches := fetches p1 |})
              end
          end
    | None => (inl (ErrorMsg "SECRETS_ARN environment variable not set"), p)
    end.

(** The value a response parses to, when it does. *)
Definition parsed_secret (response : SecretsResponse) : option JSValue :=
  match response with
  | Response (Some (Json j)) => Some j
  | _ => None
  end.

(** The names under which the entries of a secret reach the environment. *)
Definition exported_names (entries : list (string * JSValue)) : list string :=
  (fun kv => c_string kv.1) <$> entries.

(** ** A vendor message, read the way the specification words it

    These definitions follow the specification, not the handler: which
    messages are turns, which are recognized, and which events and console
    lines one message stands for. [on_message_spec] below relates them to
    the handler. *)

Definition field_of (data : RawData) (k : string) : Field :=
  match data with
  | Json (JObj fs) => assoc k fs
  | _ => Undefined
  end.

Definition has_type (data : RawData) (t : string) : bool :=
  strict_eq_str (field_of data "type") t.

Definition formatted_turn (data : RawData) : bool :=
  has_type data "Turn" && truthy (field_of data "turn_is_formatted").

Definition unformatted_turn (data : RawData) : bool :=
  has_type data "Turn" && negb (truthy (field_of data "turn_is_formatted")).

Definition recognized (data : RawData) : bool :=
  has_type data "Begin" || has_type data "Turn" ||
  has_type data "Termination" || has_type data "Error".

(** The fields a Turn message's console line prints can be converted to
    strings; they always can when they are strings, numbers, booleans, null
    or missing. *)
Definition loggable (data : RawData) : bool :=
  stringifies (field_of data "transcript")
  && stringifies (field_of data "turn_is_formatted").

(** The events one message is normalized into. *)
Definition normalize (data : RawData) (now : Z) : list VoiceAgentEvent :=
  if negb (loggable data) then []
  else if formatted_turn data then
    if truthy (field_of data "transcript") then
      [{| type := stt_output; transcript := field_of data "transcript"; ts := now |}]
    else []
  else if unformatted_turn data then
    [{| type := stt_chunk; transcript := field_of data "transcript"; ts := now |}]
  else [].

(** The console lines one message leaves. *)
Definition logged (data : RawData) : list LogLine :=
  match data with
  | Garbage _ => [ConsoleError SyntaxError]
  | Json JNull => [ConsoleError TypeError]
  | Json _ =>
      if negb (stringifies (field_of data "type")) then [ConsoleError TypeError]
      else
      DebugReceivedType (field_of data "type") ::
      if has_type data "Begin" then [DebugBegin]
      else if has_type data "Turn" then
        if negb (loggable data) then [ConsoleError TypeError]
        else
        DebugTurn (field_of data "transcript") (field_of data "turn_is_formatted") ::
        (if truthy (field_of data "turn_is_formatted") && truthy (field_of data "transcript")
         then [DebugEmitting (field_of data "transcript")] else [])
      else if has_type data "Termination" then [DebugTermination]
      else if has_type data "Error" then
        [ConsoleError (if stringifies (field_of data "error")
                       then Error (field_of data "error") else TypeError)]
      else []
  end.

Definition push_all (evs : list VoiceAgentEvent) (q : WritableIterator) : WritableIterator :=
  {| items := items q ++ evs; cancelled := cancelled q |}.

Definition add_traces (es : list Effect) (w : World) : World :=
  {| this := this w; _bufferIterator := _bufferIterator w;
     _connectionPromise := _connectionPromise w;
     sockets := sockets w; timers := timers w; clock := clock w;
     trace := trace w ++ es |}.

(** The events the handler itself appends to the queue for one message. *)
Definition emitted (data : RawData) (w : World) : list VoiceAgentEvent :=
  drop (length (items (_bufferIterator w)))
       (items (_bufferIterator (snd (on_message data w)))).

(** Vendor messages, each with the time it arrives, handled one after the
    other. *)
Definition deliver (msgs : list (RawData * Z)) (w : World) : World :=
  foldl (fun w m => snd (on_message m.1 (set_clock m.2 w))) w msgs.

Definition messages (id : nat) (msgs : list (RawData * Z)) : list Label :=
  map (fun m => WsMessage id m.1 m.2) msgs.

Definition socket_in (w : World) (id : nat) (states : list ReadyState) : bool :=
  match sockets w !! id with
  | Some c => existsb (is_state (readyState c)) states
  | None => false
  end.

(** The events that the messages among [ls] stand for, in the order the
    socket library hands them to the handler. *)
Fixpoint delivered (ls : list Label) (w : World) : list VoiceAgentEvent :=
  match ls with
  | [] => []
  | l :: rest =>
      match l with
      | WsMessage id data now =>
          if socket_in w id [OPEN; CLOSING] then normalize data now else []
      | _ => []
      end ++ delivered rest (step l w)
  end.

(** ** Sequences of messages *)

Definition normalize_all (msgs : list (RawData * Z)) : list VoiceAgentEvent :=
  flat_map (fun m => normalize m.1 m.2) msgs.

Definition logged_all (msgs : list (RawData * Z)) : list LogLine :=
  flat_map (fun m => logged m.1) msgs.

(** A formatted Turn with a transcript that is not empty and fields that
    can be logged, as the event it becomes. *)
Definition final_transcript (m : RawData * Z) : option VoiceAgentEvent :=
  if formatted_turn m.1 && truthy (field_of m.1 "transcript") && loggable m.1 then
    Some {| type := stt_output; transcript := field_of m.1 "transcript"; ts := m.2 |}
  else None.

(** ** Sample values for the examples *)

Definition sample_config : Config :=
  {| apiKey := "key"; sampleRate := 16000; formatTurns := true |}.

Definition turn_message (text : string) (formatted : bool) : RawData :=
  Json (JObj [("type", JStr "Turn"); ("transcript", JStr text);
              ("turn_is_formatted", JBool formatted)]).

Definition error_message (reason : string) : RawData :=
  Json (JObj [("type", JStr "Error"); ("error", JStr reason)]).

(** ** Relations that method bodies maintain *)

(** A body keeps [R] when the world it leaves is related to the world it
    found, whether it returns or throws. *)
Definition keeps (R : World -> World -> Prop) {A} (m : M A) : Prop :=
  forall w, R w (snd (m w)).

(** Everything that has left or is still to leave the adapter: the events
    the consumer has pulled, then the events queued. *)
Definition obs (w : World) : list VoiceAgentEvent :=
  yielded (trace w) ++ items (_bufferIterator w).

Definition same_obs (w w' : World) : Prop := obs w' = obs w.

(** The queue and the pulled events are untouched. *)
Definition same_queue (w w' : World) : Prop :=
  _bufferIterator w' = _bufferIterator w /\ yielded (trace w') = yielded (trace w).

(** The same, up to cancellation of the queue. *)
Definition same_items (w w' : World) : Prop :=
  items (_bufferIterator w') = items (_bufferIterator w)
  /\ yielded (trace w') = yielded (trace w).

(** The call a waiting continuation belongs to. *)
Definition call_of (k : Waiter) : Call :=
  match k with
  | SendAudioK buffer => SendAudioCall buffer
  | CloseK => CloseCall
  end.

(** An effect other than handing an event to the consumer. *)
Definition silent (e : Effect) : Prop :=
  match e with Yielded _ => False | _ => True end.


(** ** The Lambda entry point *)

(** The event as [handler] reads it: the properties [routeKey] and
    [connectionId] of the event object, each possibly absent. *)
Record WebsocketEvent : Type := mkWebsocketEvent {
  routeKey : option string;
  connectionId : option string
}.

Record ProxyResult : Type := mkProxyResult {
  statusCode : Z;
  body : string
}.

(** Console lines of the entry point, one constructor per site. *)
Inductive LambdaLine : Type :=
| LogEvent (event : WebsocketEvent)
| LogClientConnected (connectionId : option string)
| LogClientDisconnected (connectionId : option string)
| LogReceivedMessage (connectionId : option string)
| LogHandlerError (e : Exn).

(** [JSON.stringify({ error: "Internal server error" })]. *)
Definition internal_server_error : string :=
  let q := String "034"%char EmptyString in
  ("{" ++ q ++ "error" ++ q ++ ":" ++ q ++ "Internal server error" ++ q ++ "}")%string.

(** [switch (routeKey)]: the cases compare with [===]. *)
Definition route (event : WebsocketEvent) : ProxyResult * list LambdaLine :=
  match routeKey event with
  | Some k =>
      if String.eqb k "$connect" then
        ({| statusCode := 200; body := "Connected" |},
         [LogClientConnected (connectionId event)])
      else if String.eqb k "$disconnect" then
        ({| statusCode := 200; body := "Disconnected" |},
         [LogClientDisconnected (connectionId event)])
      else if String.eqb k "$default" then
        ({| statusCode := 200; body := "Message received" |},
         [LogReceivedMessage (connectionId event)])
      else ({| statusCode := 400; body := "Unsupported route" |}, [])
  | None => ({| statusCode := 400; body := "Unsupported route" |}, [])
  end.

(** [handler(event)], given what the secrets service answers if it is asked:
    the result, the console lines and the process afterwards. *)
Definition handler (response : SecretsResponse) (event : WebsocketEvent) (p : Process)
  : ProxyResult * list LambdaLine * Process :=
  match getSecrets response p with
  | (inr _, p') =>
      let '(result, lines) := route event in
      (result, LogEvent event :: lines, p')
  | (inl e, p') =>
      ({| statusCode := 500; body := internal_server_error |},
       [LogEvent event; LogHandlerError e], p')
  end.

(** Invocations of the entry point in one process, one after the other. *)
Fixpoint invoke_all (calls : list (SecretsResponse * WebsocketEvent)) (p : Process)
  : list ProxyResult * Process :=
  match calls with
  | [] => ([], p)
  | (response, event) :: rest =>
      let '(result, _, p') := handler response event p in
      let '(results, p'') := invoke_all rest p' in
      (result :: results, p'')
  end.

(** ** Invariants of the adapter *)

(** An effect that is neither dialling a socket nor handing an event to the
    consumer. *)
Definition quiet (e : Effect) : bool :=
  match e with
  | NewWebSocket _ _ _ | Yielded _ => false
  | _ => true
  end.

(** The sockets dialled so far: id, URL and [Authorization] header. *)
Definition dialled (t : list Effect) : list (nat * string * string) :=
  omap (fun e => match e with
                 | NewWebSocket id u a => Some (id, u, a)
                 | _ => None
                 end) t.

(** No socket is dialled, none is added and the connection promise stays. *)
Definition same_dials (w w' : World) : Prop :=
  dialled (trace w') = dialled (trace w)
  /\ length (sockets w') = length (sockets w)
  /\ _connectionPromise w' = _connectionPromise w.

(** The instance is configured as [c] and has only dialled the URL and key
    of [c]. *)
Definition dials_as (c : Config) (w : World) : Prop :=
  this w = c
  /\ Forall (fun d => d.1.2 = connection_url c /\ d.2 = apiKey c) (dialled (trace w)).

(** Every socket that is not closed is the one the connection promise
    wraps. *)
Definition one_live (w : World) : Prop :=
  forall id c, sockets w !! id = Some c -> readyState c <> CLOSED ->
    _connectionPromise w = Some id.

(** A step maintains a property of the world. *)
Definition maintains (I : World -> Prop) (w w' : World) : Prop := I w -> I w'.

(** What one [sendAudio(buffer)] leaves in the trace when its buffer goes out
    on socket [id]: the frame, and the call resolved. *)
Definition audio_effects (id : nat) (buffer : list Byte.byte) : list Effect :=
  [WsSend id (Binary buffer); Settled (SendAudioCall buffer) (inr tt)].
(** ** Properties *)

(** *** The message handler *)

Lemma push_all_nil q : push_all [] q = q.
Proof. destruct q; unfold push_all; simpl. by rewrite app_nil_r. Qed.

Lemma set_buffer_push_nil w es :
  set_buffer (push_all [] (_bufferIterator w)) (add_traces es w) = add_traces es w.
Proof. rewrite push_all_nil. by destruct w. Qed.

Ltac js_unfold :=
  unfold mbind, M_bind, bind, mret, M_ret, ret, throw, try_catch, lift,
    console_log, console_error, buffer_push, buffer_cancel, Date_now,
    settle, emit, modify, gets in *.

Lemma strict_eq_str_stringifies f t : strict_eq_str f t = true -> field_ToString f = Some t.
Proof.
  destruct f as [|[]]; try done. simpl. by intros ->%String.eqb_eq.
Qed.

Lemma not_stringifies_no_type f t : field_ToString f = None -> strict_eq_str f t = false.
Proof.
  intros H. destruct (strict_eq_str f t) eqn:E; [|done].
  apply strict_eq_str_stringifies in E. congruence.
Qed.

Lemma on_message_spec data w :
  on_message data w =
    (inr tt,
     set_buffer (push_all (normalize data (clock w)) (_bufferIterator w))
       (add_traces (Console <$> logged data) w)).
Proof.
  destruct data as [text | j].
  { change (normalize (Garbage text) (clock w)) with (@nil VoiceAgentEvent).
    rewrite set_buffer_push_nil. reflexivity. }
  destruct j as [ | b | n | s | l | fs ];
    try (change (normalize _ (clock w)) with (@nil VoiceAgentEvent);
         rewrite set_buffer_push_nil; reflexivity).
  unfold normalize, logged, loggable, formatted_turn, unformatted_turn, has_type,
    stringifies.
  cbn [field_of].
  unfold on_message, interpolate, prop, JSON_parse. js_unfold.
  cbn [get_prop].
  generalize (assoc "transcript" fs) (assoc "turn_is_formatted" fs) (assoc "error" fs).
  intros tr fm er.
  assert (Hfin : forall (q : WritableIterator),
            {| items := items q ++ []; cancelled := cancelled q |} = q).
  { intros []; simpl. by rewrite app_nil_r. }
  destruct (field_ToString (assoc "type" fs)) as [sty|] eqn:Hty.
  2:{ rewrite !(not_stringifies_no_type _ _ Hty). simpl.
      destruct (field_ToString tr), (field_ToString fm); simpl;
        destruct w; unfold set_buffer, add_trace, add_traces, push_all; simpl;
        rewrite Hfin; reflexivity. }
  clear Hty. generalize (assoc "type" fs). intros ty.
  destruct (strict_eq_str ty "Begin") eqn:HB.
  { assert (strict_eq_str ty "Turn" = false) as ->.
    { destruct ty as [|[]]; try done. simpl in *. apply String.eqb_eq in HB. by subst. }
    rewrite !andb_false_l. simpl.
    destruct (field_ToString tr), (field_ToString fm); simpl;
      destruct w; unfold set_buffer, add_trace, add_traces, push_all; simpl;
      rewrite Hfin, <- ?app_assoc; reflexivity. }
  destruct (strict_eq_str ty "Turn") eqn:HT; simpl.
  { destruct (field_ToString tr) eqn:Htr, (field_ToString fm); simpl;
      destruct (truthy fm), (truthy tr); simpl; rewrite ?Htr; simpl;
      destruct w; unfold set_buffer, add_trace, add_traces, push_all, iterator_push; simpl;
      rewrite ?Hfin, <- ?app_assoc; reflexivity. }
  assert (Hn : (if negb (match field_ToString tr with Some _ => true | None => false end
                         && match field_ToString fm with Some _ => true | None => false end)
                then @nil VoiceAgentEvent else []) = []) by (by destruct (negb _)).
  rewrite Hn. clear Hn.
  destruct (strict_eq_str ty "Termination"); simpl.
  { destruct w; unfold set_buffer, add_trace, add_traces, push_all; simpl.
    rewrite Hfin, <- ?app_assoc. reflexivity. }
  destruct (strict_eq_str ty "Error"); simpl;
    [destruct (field_ToString er); simpl|];
    destruct w; unfold set_buffer, add_trace, add_traces, push_all; simpl;
    rewrite Hfin, <- ?app_assoc; reflexivity.
Qed.

(** *** The constructor *)

Example url_default :
  connection_url {| apiKey := "k"; sampleRate := 16000; formatTurns := true |}
  = "wss://streaming.assemblyai.com/v3/ws?sample_rate=16000&format_turns=true".
Proof. reflexivity. Qed.

Lemma truthy_str_Some k : truthy_str (Some k) = true <-> k <> "".
Proof.
  simpl. destruct (String.eqb_spec k ""); simpl; split; congruence.
Qed.

(** The constructor, with its two uses of [||] on the key resolved. *)
Lemma constructor_cases options env :
  constructor options env =
    match or_str (opt_apiKey options) (env !! ASSEMBLYAI_API_KEY) with
    | Some k =>
        if truthy_str (Some k) then
          inr {| apiKey := k;
                 sampleRate := or_number (opt_sampleRate options) 16000;
                 formatTurns := or_bool (opt_formatTurns options) true |}
        else inl (ErrorMsg "AssemblyAI API key is required")
    | None => inl (ErrorMsg "AssemblyAI API key is required")
    end.
Proof.
  unfold constructor.
  destruct (or_str (opt_apiKey options) _) as [k|] eqn:Hk.
  - unfold or_str, truthy_str; simpl. destruct (String.eqb k "") eqn:E; simpl; rewrite ?E; reflexivity.
  - reflexivity.
Qed.

(** C10: the constructor throws, with the message "AssemblyAI API key is
    required", exactly when [options.apiKey] is absent or empty and the
    environment variable [ASSEMBLYAI_API_KEY] is absent or empty too; it
    throws nothing else; and when both are present and non-empty the instance
    carries the key of [options]. *)
Theorem constructor_requires_api_key options env :
  (constructor options env = inl (ErrorMsg "AssemblyAI API key is required")
   <-> truthy_str (opt_apiKey options) = false
       /\ truthy_str (env !! ASSEMBLYAI_API_KEY) = false)
  /\ (forall e, constructor options env = inl e ->
        e = ErrorMsg "AssemblyAI API key is required")
  /\ (forall k k',
        opt_apiKey options = Some k -> k <> "" ->
        env !! ASSEMBLYAI_API_KEY = Some k' -> k' <> "" ->
        exists c, constructor options env = inr c /\ apiKey c = k).
Proof.
  rewrite constructor_cases. unfold or_str.
  destruct (opt_apiKey options) as [k|] eqn:Hopt;
    [destruct (truthy_str (Some k)) eqn:Ho|].
  - rewrite Ho. repeat split; try done.
    + by intros [? _].
    + intros k0 k' [= <-] _ _ _. eauto.
  - destruct (env !! ASSEMBLYAI_API_KEY) as [k'|] eqn:He;
      [destruct (truthy_str (Some k')) eqn:Hk'|].
    + repeat split; try done.
      * by intros [_ ?].
      * intros k0 k1 [= <-] Hne. apply truthy_str_Some in Hne. congruence.
    + repeat split; try done.
      * by intros e [= <-].
      * intros k0 k1 [= <-] Hne. apply truthy_str_Some in Hne. congruence.
    + repeat split; try done. by intros e [= <-].
  - change (truthy_str None) with false. cbv iota.
    destruct (env !! ASSEMBLYAI_API_KEY) as [k'|] eqn:He;
      [destruct (truthy_str (Some k')) eqn:Hk'|].
    + repeat split; try done. by intros [_ ?].
    + repeat split; try done. by intros e [= <-].
    + repeat split; try done. by intros e [= <-].
Qed.

Lemma constructor_requires_api_key_witness :
  exists c,
    constructor {| opt_apiKey := Some "from-options"; opt_sampleRate := None;
                   opt_formatTurns := None |}
                {[ ASSEMBLYAI_API_KEY := "from-env" ]} = inr c
    /\ apiKey c = "from-options".
Proof.
  refine (proj2 (proj2 (constructor_requires_api_key _ _)) "from-options" "from-env" _ _ _ _).
  - reflexivity.
  - discriminate.
  - reflexivity.
  - discriminate.
Defined.

(** C9: whatever the options, [formatTurns] of a constructed instance is
    [true] (also when the caller passes [formatTurns: false]), so the URL the
    connection getter dials ends in [format_turns=true]. *)
Theorem formatTurns_always_true options env c now :
  constructor options env = inr c ->
  formatTurns c = true
  /\ connection_url c =
       ("wss://streaming.assemblyai.com/v3/ws?sample_rate=" ++
        number_toString (sampleRate c) ++ "&format_turns=true")%string
  /\ trace (snd (_connection (new_AssemblyAISTT c now))) =
       [NewWebSocket 0
          ("wss://streaming.assemblyai.com/v3/ws?sample_rate=" ++
           number_toString (sampleRate c) ++ "&format_turns=true")%string
          (apiKey c)].
Proof.
  intros H.
  assert (Hf : formatTurns c = true).
  { unfold constructor in H.
    destruct (negb _); [done|]. injection H as <-. simpl.
    by destruct (opt_formatTurns options) as [[]|]. }
  assert (Hu : connection_url c =
       ("wss://streaming.assemblyai.com/v3/ws?sample_rate=" ++
        number_toString (sampleRate c) ++ "&format_turns=true")%string).
  { unfold connection_url. by rewrite Hf. }
  split; [done|]. split; [done|].
  rewrite <- Hu. reflexivity.
Qed.

Lemma formatTurns_always_true_witness :
  formatTurns {| apiKey := "key"; sampleRate := 8000; formatTurns := true |} = true
  /\ connection_url {| apiKey := "key"; sampleRate := 8000; formatTurns := true |} =
       "wss://streaming.assemblyai.com/v3/ws?sample_rate=8000&format_turns=true".
Proof.
  pose proof (formatTurns_always_true
    {| opt_apiKey := Some "key"; opt_sampleRate := Some 8000;
       opt_formatTurns := Some false |} ∅
    {| apiKey := "key"; sampleRate := 8000; formatTurns := true |} 0 eq_refl)
    as (H1 & H2 & _).
  exact (conj H1 H2).
Defined.

(** *** What one message puts on the queue *)

Lemma emitted_normalize data w : emitted data w = normalize data (clock w).
Proof.
  unfold emitted. rewrite on_message_spec. simpl. apply drop_app_length.
Qed.

Lemma on_message_items data w :
  items (_bufferIterator (snd (on_message data w))) =
  items (_bufferIterator w) ++ emitted data w.
Proof. rewrite emitted_normalize, on_message_spec. reflexivity. Qed.

Lemma normalize_kinds data now ev :
  ev ∈ normalize data now ->
  (type ev = stt_chunk /\ unformatted_turn data = true)
  \/ (type ev = stt_output /\ formatted_turn data = true).
Proof.
  unfold normalize.
  destruct (negb (loggable data)); [by intros ?%elem_of_nil|].
  destruct (formatted_turn data) eqn:Hf.
  - destruct (truthy _); [|by intros ?%elem_of_nil].
    intros ->%list_elem_of_singleton. by right.
  - destruct (unformatted_turn data) eqn:Hu; [|by intros ?%elem_of_nil].
    intros ->%list_elem_of_singleton. by left.
Qed.

Lemma has_type_exclusive data t t' :
  has_type data t = true -> has_type data t' = true -> t = t'.
Proof.
  unfold has_type, strict_eq_str.
  destruct (field_of data "type") as [|[]]; try done.
  intros ->%String.eqb_eq ->%String.eqb_eq. reflexivity.
Qed.

Lemma normalize_not_turn data now :
  has_type data "Turn" = false -> normalize data now = [].
Proof.
  intros H. unfold normalize, formatted_turn, unformatted_turn. rewrite H.
  by destruct (negb _).
Qed.

(** *** Several messages in a row *)

(** Handling messages touches the queue, the console and the clock, and
    nothing else. *)
Lemma deliver_spec msgs w :
  let w' := deliver msgs w in
  this w' = this w
  /\ _connectionPromise w' = _connectionPromise w
  /\ sockets w' = sockets w
  /\ timers w' = timers w
  /\ _bufferIterator w' = push_all (normalize_all msgs) (_bufferIterator w)
  /\ trace w' = trace w ++ (Console <$> logged_all msgs).
Proof.
  revert w. induction msgs as [|[data now] msgs IH]; intros w.
  - simpl. rewrite push_all_nil, app_nil_r. done.
  - change (deliver ((data, now) :: msgs) w)
      with (deliver msgs (snd (on_message data (set_clock now w)))).
    cbn zeta in IH |- *.
    destruct (IH (snd (on_message data (set_clock now w))))
      as (H1 & H2 & H3 & H4 & H5 & H6).
    rewrite H1, H2, H3, H4, H5, H6. rewrite on_message_spec. simpl.
    repeat split; try done.
    + unfold push_all. simpl. by rewrite <- app_assoc.
    + rewrite fmap_app. by rewrite <- app_assoc.
Qed.

Lemma filter_output_normalize data now :
  List.filter (is_kind stt_output) (normalize data now) =
  option_list (final_transcript (data, now)).
Proof.
  unfold normalize, final_transcript. simpl.
  destruct (loggable data); simpl.
  - destruct (formatted_turn data); simpl.
    + by destruct (truthy _).
    + by destruct (unformatted_turn data).
  - by rewrite andb_false_r.
Qed.

Lemma filter_output_normalize_all msgs :
  List.filter (is_kind stt_output) (normalize_all msgs) = omap final_transcript msgs.
Proof.
  induction msgs as [|[data now] msgs IH]; [done|].
  unfold normalize_all in *. simpl. rewrite List.filter_app, IH.
  rewrite filter_output_normalize. by destruct (final_transcript _).
Qed.

Lemma normalize_all_kinds msgs :
  Forall (fun ev => type ev = stt_chunk \/ type ev = stt_output) (normalize_all msgs).
Proof.
  apply Forall_forall. intros ev [[data now] [_ Hin]]%list_elem_of_In%in_flat_map.
  apply list_elem_of_In, normalize_kinds in Hin. tauto.
Qed.

(** C3, as amended: a formatted Turn message whose transcript is not empty,
    and whose [transcript] and [turn_is_formatted] can be converted to
    strings for the console line the handler writes first (they always can
    when they are strings, numbers, booleans, null or missing), puts exactly
    one [stt_output] event on the queue, carrying that transcript; a
    formatted Turn message whose transcript is empty or missing, or one of
    whose two fields cannot be converted, puts nothing on it. Over any
    sequence of messages, the [stt_output] events appended are, in order,
    those of the formatted Turn messages with a non-empty transcript and
    convertible fields, and every other event appended is a [stt_chunk]. *)
Theorem one_output_per_nonempty_final_turn data w msgs :
  formatted_turn data = true ->
  (loggable data = true -> truthy (field_of data "transcript") = true ->
     emitted data w =
       [{| type := stt_output; transcript := field_of data "transcript";
           ts := clock w |}])
  /\ (truthy (field_of data "transcript") = false -> emitted data w = [])
  /\ (loggable data = false -> emitted data w = [])
  /\ (exists evs,
        items (_bufferIterator (deliver msgs w)) = items (_bufferIterator w) ++ evs
        /\ List.filter (is_kind stt_output) evs = omap final_transcript msgs
        /\ Forall (fun ev => type ev = stt_chunk \/ type ev = stt_output) evs).
Proof.
  intros Hf. rewrite emitted_normalize. unfold normalize. rewrite Hf.
  split; [by intros -> ->|]. split; [intros ->; by destruct (negb _)|].
  split; [by intros ->|].
  exists (normalize_all msgs).
  destruct (deliver_spec msgs w) as (_ & _ & _ & _ & -> & _).
  split; [done|].
  split; [apply filter_output_normalize_all | apply normalize_all_kinds].
Qed.

Lemma one_output_per_nonempty_final_turn_witness :
  emitted (Json (JObj [("type", JStr "Turn"); ("transcript", JStr "turkey sandwich");
                       ("turn_is_formatted", JBool true)]))
          (new_AssemblyAISTT {| apiKey := "k"; sampleRate := 16000; formatTurns := true |} 42)
  = [{| type := stt_output; transcript := Val (JStr "turkey sandwich"); ts := 42 |}].
Proof.
  refine (proj1 (one_output_per_nonempty_final_turn _ _ [] _) _ _); reflexivity.
Defined.

(** C3, as the specification states it, fails: a formatted Turn message with
    an empty transcript is a completed turn and yields no [stt_output]. *)
Lemma empty_final_turn_yields_no_output :
  let data := Json (JObj [("type", JStr "Turn"); ("transcript", JStr "");
                          ("turn_is_formatted", JBool true)]) in
  let w := new_AssemblyAISTT {| apiKey := "k"; sampleRate := 16000; formatTurns := true |} 0 in
  formatted_turn data = true
  /\ ~ (exists ev, emitted data w = [ev] /\ type ev = stt_output)
  /\ items (_bufferIterator (snd (on_message data w))) = [].
Proof.
  split; [reflexivity|]. split; [|reflexivity].
  intros (ev & H & _). discriminate H.
Qed.

(** *** Frame rules for method bodies *)

Section Keeps.
Context (R : World -> World -> Prop) `{!Reflexive R} `{!Transitive R}.

Lemma keeps_ret {A} (a : A) : keeps R (mret a).
Proof. intros w. simpl. reflexivity. Qed.

Lemma keeps_ret' {A} (a : A) : keeps R (ret a).
Proof. intros w. simpl. reflexivity. Qed.

Lemma keeps_throw {A} e : keeps R (@throw A e).
Proof. intros w. simpl. reflexivity. Qed.

Lemma keeps_lift {A} (r : Exn + A) : keeps R (lift r).
Proof. intros w. simpl. reflexivity. Qed.

Lemma keeps_gets {A} (f : World -> A) : keeps R (gets f).
Proof. intros w. simpl. reflexivity. Qed.

Lemma keeps_bind {A B} (m : M A) (k : A -> M B) :
  keeps R m -> (forall a, keeps R (k a)) -> keeps R (m ≫= k).
Proof.
  intros Hm Hk w. unfold mbind, M_bind, bind.
  specialize (Hm w). destruct (m w) as [[e|a] w']; simpl in *; [done|].
  etrans; [exact Hm | apply Hk].
Qed.

Lemma keeps_try_catch {A} (body : M A) (handler : Exn -> M A) :
  keeps R body -> (forall e, keeps R (handler e)) -> keeps R (try_catch body handler).
Proof.
  intros Hm Hk w. unfold try_catch.
  specialize (Hm w). destruct (body w) as [[e|a] w']; simpl in *; [|done].
  etrans; [exact Hm | apply Hk].
Qed.
End Keeps.

(** Applies the frame rules down a body, splitting on what the body
    inspects; leaves the primitive steps. *)
Ltac keeps_step :=
  match goal with
  | |- keeps _ (_ ≫= _) => apply keeps_bind; [try apply _; try apply _ | | intros ?]
  | |- keeps _ (try_catch _ _) => apply keeps_try_catch; [try apply _; try apply _ | | intros ?]
  | |- keeps _ (mret _) => apply keeps_ret; try apply _
  | |- keeps _ (ret _) => apply keeps_ret'; try apply _
  | |- keeps _ (throw _) => apply keeps_throw; try apply _
  | |- keeps _ (lift _) => apply keeps_lift; try apply _
  | |- keeps _ (gets _) => apply keeps_gets; try apply _
  | |- keeps _ (match ?x with _ => _ end) => destruct x
  | |- keeps _ (let '(_, _) := ?x in _) => destruct x
  end.

#[local] Instance same_obs_refl : Reflexive same_obs.
Proof. by intros w. Qed.
#[local] Instance same_obs_trans : Transitive same_obs.
Proof. unfold same_obs. intros a b c H1 H2. congruence. Qed.
#[local] Instance same_queue_refl : Reflexive same_queue.
Proof. by intros w. Qed.
#[local] Instance same_queue_trans : Transitive same_queue.
Proof. unfold same_queue. intros a b c [] []. split; congruence. Qed.
#[local] Instance same_items_refl : Reflexive same_items.
Proof. by intros w. Qed.
#[local] Instance same_items_trans : Transitive same_items.
Proof. unfold same_items. intros a b c [] []. split; congruence. Qed.

Lemma same_queue_items w w' : same_queue w w' -> same_items w w'.
Proof. intros [H1 H2]. split; [by rewrite H1 | done]. Qed.

Lemma same_items_obs w w' : same_items w w' -> same_obs w w'.
Proof. unfold same_obs, obs. intros [H1 H2]. by rewrite H1, H2. Qed.

Lemma keeps_weaken (R R' : World -> World -> Prop) {A} (m : M A) :
  (forall w w', R w w' -> R' w w') -> keeps R m -> keeps R' m.
Proof. intros H Hm w. apply H, Hm. Qed.

Lemma yielded_snoc t e :
  yielded (t ++ [e]) = yielded t ++ match e with Yielded ev => [ev] | _ => [] end.
Proof.
  unfold yielded. rewrite omap_app. f_equal. by destruct e.
Qed.

Create HintDb keeps.

Lemma keeps_emit e : silent e -> keeps same_queue (emit e).
Proof.
  intros He w. split; [done|]. simpl. rewrite yielded_snoc.
  destruct e; try done; apply app_nil_r.
Qed.

Lemma keeps_settle c o : keeps same_queue (settle c o).
Proof. by apply keeps_emit. Qed.

Lemma keeps_console_log l : keeps same_queue (console_log l).
Proof. by apply keeps_emit. Qed.

Lemma keeps_update_socket id f : keeps same_queue (update_socket id f).
Proof. by intros w. Qed.

Lemma keeps_socket_state id : keeps same_queue (socket_state id).
Proof. by intros w. Qed.

Lemma keeps_set_timers f : keeps same_queue (modify (fun w => set_timers (f w) w)).
Proof. by intros w. Qed.

Lemma keeps_set_sockets f : keeps same_queue (modify (fun w => set_sockets (f w) w)).
Proof. by intros w. Qed.

Lemma keeps_set_connectionPromise p : keeps same_queue (modify (set_connectionPromise p)).
Proof. by intros w. Qed.

#[local] Hint Resolve keeps_settle keeps_console_log keeps_update_socket
  keeps_socket_state keeps_set_timers keeps_set_sockets
  keeps_set_connectionPromise : keeps.
#[local] Hint Extern 1 (keeps same_queue (emit _)) =>
  apply keeps_emit; exact I : keeps.

(** Walks a body with the frame rules and closes the primitive steps from
    the hint database. *)
Ltac keeps_auto := repeat keeps_step; eauto with keeps.

Lemma keeps_ws_send id f : keeps same_queue (ws_send id f).
Proof. unfold ws_send. keeps_auto. Qed.

Lemma keeps_ws_close id : keeps same_queue (ws_close id).
Proof. unfold ws_close. keeps_auto. Qed.

#[local] Hint Resolve keeps_ws_send keeps_ws_close : keeps.

Lemma keeps_resume id k o : keeps same_queue (resume id k o).
Proof. unfold resume. destruct k, o; keeps_auto. Qed.

#[local] Hint Resolve keeps_resume : keeps.

Lemma keeps_run_waiters id o ks : keeps same_queue (run_waiters id o ks).
Proof. induction ks as [|k ks IH]; simpl; keeps_auto. Qed.

#[local] Hint Resolve keeps_run_waiters : keeps.

Lemma keeps_settle_promise id p o : keeps same_queue (settle_promise id p o).
Proof. unfold settle_promise. keeps_auto. Qed.

Lemma keeps_await id k : keeps same_queue (await id k).
Proof. unfold await. keeps_auto. Qed.

Lemma keeps_connection : keeps same_queue _connection.
Proof. unfold _connection. keeps_auto. Qed.

#[local] Hint Resolve keeps_settle_promise keeps_await keeps_connection : keeps.

Lemma keeps_sendAudio buffer : keeps same_queue (sendAudio buffer).
Proof. unfold sendAudio. keeps_auto. Qed.

Lemma keeps_close : keeps same_queue close.
Proof. unfold close. keeps_auto. Qed.

Lemma keeps_on_open id : keeps same_queue (on_open id).
Proof. apply keeps_settle_promise. Qed.

Lemma keeps_on_close : keeps same_queue on_close.
Proof. by intros w. Qed.

Lemma keeps_on_timeout id : keeps same_queue (on_timeout id).
Proof. unfold on_timeout. keeps_auto. Qed.

Lemma keeps_on_error id e : keeps same_items (on_error id e).
Proof.
  unfold on_error. repeat keeps_step.
  - by intros w.
  - eapply keeps_weaken; [apply same_queue_items | apply keeps_settle_promise].
Qed.

(** *** Malformed messages, vendor errors and connection failures *)

Lemma recognized_false_not_turn data :
  recognized data = false -> has_type data "Turn" = false.
Proof.
  unfold recognized. destruct (has_type data "Turn"); [|done].
  by rewrite orb_true_r.
Qed.

Lemma logged_nonempty data : logged data <> [].
Proof.
  destruct data as [|j]; [done|].
  destruct j; try done; simpl; by destruct (negb (stringifies _)).
Qed.

Lemma add_traces_nil w : add_traces [] w = w.
Proof. destruct w. unfold add_traces. simpl. by rewrite app_nil_r. Qed.

Lemma add_traces_cons e es w : add_traces es (add_trace e w) = add_traces (e :: es) w.
Proof. destruct w. unfold add_traces, add_trace. simpl. by rewrite <- app_assoc. Qed.

(** When the connection fails, every call that was waiting for it is
    rejected with the failure, in the order the calls were made. *)
Lemma run_waiters_rejected id e ks w :
  run_waiters id (inl e) ks w =
    (inr tt, add_traces ((fun k => Settled (call_of k) (inl e)) <$> ks) w).
Proof.
  revert w. induction ks as [|k ks IH]; intros w.
  - simpl. by rewrite add_traces_nil.
  - simpl. unfold mbind, M_bind, bind.
    assert (resume id k (inl e) w = (inr tt, add_trace (Settled (call_of k) (inl e)) w))
      as -> by by destruct k.
    by rewrite IH, add_traces_cons.
Qed.

Lemma on_error_unsettled id e w c :
  sockets w !! id = Some c -> promise c = Unsettled ->
  on_error id e w =
    (inr tt,
     add_traces ((fun k => Settled (call_of k) (inl e)) <$> waiters c)
       (set_sockets
          (alter (fun c => set_waiters [] (set_promise (Rejected e) c)) id (sockets w))
          (set_buffer (iterator_cancel (_bufferIterator w)) w))).
Proof.
  intros Hs Hp. unfold on_error, settle_promise, buffer_cancel, update_socket.
  js_unfold. simpl. rewrite Hs. destruct c as [u a r p ks]. simpl in *. subst p.
  by rewrite run_waiters_rejected.
Qed.

(** C1, as amended: a vendor message that does not parse to a recognized
    shape is logged and skipped: the handler returns normally, writes at
    least one console line and changes nothing else, so the stage continues.
    No message makes the handler put an [error] event on the output. A
    failure of the connection itself (the socket's "error" event) cancels the
    output sequence without adding an event to it, and if the connection was
    still being established it rejects the connection promise and every call
    waiting for it. *)
Theorem malformed_skipped_connection_error_cancels data w id e :
  (recognized data = false ->
     on_message data w = (inr tt, add_traces (Console <$> logged data) w)
     /\ logged data <> [])
  /\ (forall ev, ev ∈ emitted data w -> type ev <> error)
  /\ cancelled (_bufferIterator (snd (on_error id e w))) = true
  /\ items (_bufferIterator (snd (on_error id e w))) = items (_bufferIterator w)
  /\ yielded (trace (snd (on_error id e w))) = yielded (trace w)
  /\ (forall c, sockets w !! id = Some c -> promise c = Unsettled ->
        promise <$> sockets (snd (on_error id e w)) !! id = Some (Rejected e)
        /\ trace (snd (on_error id e w)) =
             trace w ++ ((fun k => Settled (call_of k) (inl e)) <$> waiters c)).
Proof.
  split; [|split; [|split; [|split; [|split]]]].
  - intros Hr. split; [|apply logged_nonempty].
    rewrite on_message_spec, normalize_not_turn by by apply recognized_false_not_turn.
    by rewrite set_buffer_push_nil.
  - intros ev. rewrite emitted_normalize.
    intros [[-> _]|[-> _]]%normalize_kinds; done.
  - unfold on_error, buffer_cancel. js_unfold. simpl.
    set (w1 := set_buffer _ w).
    destruct (keeps_settle_promise id (Rejected e) (inl e) w1) as [-> _].
    reflexivity.
  - apply (keeps_on_error id e w).
  - apply (keeps_on_error id e w).
  - intros c Hs Hp. rewrite (on_error_unsettled id e w c Hs Hp). simpl.
    split; [|done]. by rewrite list_lookup_alter_eq, Hs.
Qed.

Lemma malformed_skipped_connection_error_cancels_witness :
  on_message (Garbage "not json") (new_AssemblyAISTT sample_config 0) =
    (inr tt, add_traces [Console (ConsoleError SyntaxError)]
               (new_AssemblyAISTT sample_config 0)).
Proof.
  refine (proj1 (proj1
    (malformed_skipped_connection_error_cancels (Garbage "not json") _ 0%nat SyntaxError) _)).
  reflexivity.
Defined.

(** C1, as the specification states it, fails: a vendor message of type
    "Error" puts no [error] event on the output and does not end the stage;
    the turn that follows it is transcribed and handed to the consumer. *)
Lemma vendor_error_message_is_swallowed :
  let w0 := run [CallSendAudio []; WsOpen 0] (new_AssemblyAISTT sample_config 0) in
  let w1 := step (WsMessage 0 (error_message "quota exceeded") 1) w0 in
  let w2 := run [WsMessage 0 (turn_message "hello" true) 2; Pull; Pull] w1 in
  recognized (error_message "quota exceeded") = true
  /\ emitted (error_message "quota exceeded") w0 = []
  /\ cancelled (_bufferIterator w1) = false
  /\ count_kind error (yielded (trace w2)) = 0%nat
  /\ yielded (trace w2) =
       [{| type := stt_output; transcript := Val (JStr "hello"); ts := 2 |}].
Proof. repeat split; reflexivity. Qed.

(** *** Order of the events handed to the consumer *)

Lemma receiveEvents_next_obs : keeps same_obs receiveEvents_next.
Proof.
  intros w. unfold receiveEvents_next, iterator_next, same_obs, obs. js_unfold.
  simpl. destruct (items (_bufferIterator w)) as [|ev rest] eqn:Hq; simpl.
  - destruct (cancelled _); simpl; by rewrite Hq.
  - rewrite yielded_snoc. by rewrite <- app_assoc.
Qed.


(** Every step other than the arrival of a message or a pull of the consumer
    leaves the queued and the pulled events alone. *)
Lemma handle_keeps_items l :
  match l with WsMessage _ _ _ | Pull => False | _ => True end ->
  keeps same_items (handle l).
Proof.
  destruct l; intros Hl; try done; simpl.
  - eapply keeps_weaken; [apply same_queue_items | apply keeps_sendAudio].
  - eapply keeps_weaken; [apply same_queue_items | apply keeps_close].
  - eapply keeps_weaken; [apply same_queue_items |].
    keeps_auto; apply keeps_on_open.
  - repeat keeps_step; try (by intros ?);
      first [ apply keeps_on_error
            | eapply keeps_weaken; [apply same_queue_items | apply keeps_update_socket] ].
  - eapply keeps_weaken; [apply same_queue_items |].
    keeps_auto; apply keeps_on_close.
  - eapply keeps_weaken; [apply same_queue_items |].
    keeps_auto; apply keeps_on_timeout.
Qed.

Lemma step_message id data now w :
  step (WsMessage id data now) w =
    if socket_in w id [OPEN; CLOSING]
    then snd (on_message data (set_clock now w))
    else w.
Proof.
  unfold step, handle, socket_state, socket_in. js_unfold. simpl.
  destruct (sockets w !! id) as [c|]; simpl; [|done].
  destruct (readyState c); simpl; try done;
    by destruct (on_message data (set_clock now w)) as [[] ?].
Qed.

Lemma delivered_one l w :
  delivered [l] w =
    match l with
    | WsMessage id data now =>
        if socket_in w id [OPEN; CLOSING] then normalize data now else []
    | _ => []
    end.
Proof. simpl. apply app_nil_r. Qed.

Lemma yielded_console lines : yielded (Console <$> lines) = [].
Proof. by induction lines. Qed.

Lemma step_obs l w : obs (step l w) = obs w ++ delivered [l] w.
Proof.
  rewrite delivered_one.
  destruct l;
    try (rewrite app_nil_r;
         match goal with
         | |- obs (step ?l w) = _ =>
             change (same_obs w (step l w));
             apply same_items_obs, (handle_keeps_items l I w)
         end).
  - rewrite app_nil_r. change (same_obs w (step Pull w)).
    apply (keeps_bind same_obs); [|by intros ? ?].
    apply receiveEvents_next_obs.
  - rewrite step_message.
    destruct (socket_in w id _); [|by rewrite app_nil_r].
    rewrite on_message_spec. unfold obs. simpl.
    rewrite <- app_assoc. f_equal.
    unfold yielded. rewrite omap_app. fold (yielded (Console <$> logged data)).
    by rewrite yielded_console, app_nil_r.
Qed.

Lemma run_cons l ls w : run (l :: ls) w = run ls (step l w).
Proof. reflexivity. Qed.

Lemma run_app ls1 ls2 w : run (ls1 ++ ls2) w = run ls2 (run ls1 w).
Proof. apply foldl_app. Qed.

Lemma run_obs ls w : obs (run ls w) = obs w ++ delivered ls w.
Proof.
  revert w. induction ls as [|l ls IH]; intros w.
  - simpl. by rewrite app_nil_r.
  - rewrite run_cons, IH, step_obs, delivered_one.
    rewrite <- app_assoc. reflexivity.
Qed.



(** *** The kinds of events on the output *)

Lemma delivered_kinds ls w :
  Forall (fun ev => type ev = stt_chunk \/ type ev = stt_output) (delivered ls w).
Proof.
  revert w. induction ls as [|l ls IH]; intros w; [by constructor|].
  simpl. apply Forall_app. split; [|apply IH].
  destruct l; try by constructor.
  destruct (socket_in w id _); [|by constructor].
  apply Forall_forall. intros ev Hin%normalize_kinds. tauto.
Qed.

(** C4: the handler only ever appends to the queue, what it appends for one
    vendor message are events of kind [stt_chunk] (and then the message is an
    unformatted Turn) or [stt_output] (and then it is a formatted Turn), and
    a Begin or Termination message appends nothing and leaves the queue as it
    was. So, whatever happens to an instance, the events it has handed to the
    consumer and the events it holds are all of these two kinds. *)
Theorem only_chunks_and_outputs data w ls c now :
  items (_bufferIterator (snd (on_message data w))) =
    items (_bufferIterator w) ++ emitted data w
  /\ (forall ev, ev ∈ emitted data w ->
        (type ev = stt_chunk /\ unformatted_turn data = true)
        \/ (type ev = stt_output /\ formatted_turn data = true))
  /\ (has_type data "Begin" = true \/ has_type data "Termination" = true ->
        emitted data w = []
        /\ _bufferIterator (snd (on_message data w)) = _bufferIterator w)
  /\ Forall (fun ev => type ev = stt_chunk \/ type ev = stt_output)
        (yielded (trace (run ls (new_AssemblyAISTT c now))) ++
         items (_bufferIterator (run ls (new_AssemblyAISTT c now)))).
Proof.
  split; [apply on_message_items|]. split; [|split].
  - intros ev. rewrite emitted_normalize. apply normalize_kinds.
  - intros H.
    assert (Hn : normalize data (clock w) = []).
    { apply normalize_not_turn.
      destruct (has_type data "Turn") eqn:Ht; [|done].
      destruct H as [H|H]; by pose proof (has_type_exclusive _ _ _ H Ht). }
    rewrite emitted_normalize, on_message_spec, Hn. split; [done|].
    simpl. apply push_all_nil.
  - pose proof (run_obs ls (new_AssemblyAISTT c now)) as H.
    unfold obs in H. rewrite H. simpl. apply delivered_kinds.
Qed.

Lemma only_chunks_and_outputs_witness :
  emitted (Json (JObj [("type", JStr "Begin")])) (new_AssemblyAISTT sample_config 0) = [].
Proof.
  refine (proj1 (proj1 (proj2 (proj2
    (only_chunks_and_outputs _ _ [] sample_config 0))) _)).
  left. reflexivity.
Defined.

(** *** The steps of [close()] and of the socket, computed *)

Ltac step_unfold :=
  unfold step, handle, close, sendAudio, _connection, await, resume,
    on_timeout, on_close, on_open, settle_promise, ws_send, ws_close,
    socket_state, update_socket;
  js_unfold.

Lemma socket_in_lookup w id c states :
  sockets w !! id = Some c ->
  socket_in w id states = existsb (is_state (readyState c)) states.
Proof. unfold socket_in. by intros ->. Qed.

Lemma run_messages id msgs w :
  socket_in w id [OPEN; CLOSING] = true ->
  run (messages id msgs) w = deliver msgs w.
Proof.
  revert w. induction msgs as [|[data now] msgs IH]; intros w Hs; [done|].
  change (run (messages id ((data, now) :: msgs)) w)
    with (run (messages id msgs) (step (WsMessage id data now) w)).
  rewrite step_message, Hs.
  change (deliver ((data, now) :: msgs) w)
    with (deliver msgs (snd (on_message data (set_clock now w)))).
  apply IH. unfold socket_in. rewrite on_message_spec. exact Hs.
Qed.

(** [close()] on an open connection: log, send the terminate message, arm
    the 100 ms timer; the socket is not touched yet. *)
Lemma close_on_open w id c :
  _connectionPromise w = Some id ->
  sockets w !! id = Some c -> readyState c = OPEN -> promise c = Fulfilled ->
  step CallClose w =
    set_timers (timers w ++ [id])
      (add_traces [Console DebugSendingTerminate;
                   WsSend id (Text terminate_message);
                   SetTimeout 100 id] w).
Proof.
  intros Hp Hs Hr Hf. destruct w as [cfg q p ss tm ck tr]. simpl in *. subst p.
  step_unfold. repeat (simpl; first [rewrite Hs | rewrite Hf | rewrite Hr]). simpl.
  unfold set_timers, add_traces, add_trace. simpl. by rewrite <- !app_assoc.
Qed.



Lemma elem_nat_snoc id l : elem_nat id (l ++ [id]) = true.
Proof.
  unfold elem_nat. rewrite existsb_app. simpl.
  by rewrite Nat.eqb_refl, orb_true_r.
Qed.

(** The grace timer fires on an open socket: the closing handshake starts. *)
Lemma timeout_on_open w id c :
  elem_nat id (timers w) = true ->
  sockets w !! id = Some c -> readyState c = OPEN ->
  step (GraceTimeout id) w =
    add_traces [WsClose id; Settled CloseCall (inr tt)]
      (set_sockets (alter (set_readyState CLOSING) id (sockets w))
         (set_timers (remove_first id (timers w)) w)).
Proof.
  intros Ht Hs Hr. destruct w as [cfg q p ss tm ck tr]. simpl in *.
  step_unfold. repeat (simpl; first [rewrite Ht | rewrite Hs | rewrite Hr]). simpl.
  unfold add_traces, add_trace. simpl. by rewrite <- !app_assoc.
Qed.

(** The grace timer fires on a socket that is closing or closed already. *)
Lemma timeout_on_closing w id c :
  elem_nat id (timers w) = true ->
  sockets w !! id = Some c ->
  readyState c = CLOSING \/ readyState c = CLOSED ->
  step (GraceTimeout id) w =
    add_trace (Settled CloseCall (inr tt))
      (set_timers (remove_first id (timers w)) w).
Proof.
  intros Ht Hs Hr. destruct w as [cfg q p ss tm ck tr]. simpl in *.
  step_unfold.
  destruct Hr as [Hr | Hr];
    repeat (simpl; first [rewrite Ht | rewrite Hs | rewrite Hr]); done.
Qed.

(** The socket's "close" event: the socket is closed and the promise reset. *)
Lemma closed_event w id c :
  sockets w !! id = Some c -> readyState c <> CLOSED ->
  step (WsClosed id) w =
    set_connectionPromise None
      (set_sockets (alter (set_readyState CLOSED) id (sockets w)) w).
Proof.
  intros Hs Hr. destruct w as [cfg q p ss tm ck tr]. simpl in *.
  step_unfold. repeat (simpl; rewrite Hs). simpl.
  by destruct (readyState c).
Qed.

Lemma wire_app t1 t2 : wire (t1 ++ t2) = wire t1 ++ wire t2.
Proof. apply List.filter_app. Qed.

Lemma wire_console lines : wire (Console <$> lines) = [].
Proof. by induction lines. Qed.

(** *** Closing *)

(** C2: [close()] on an instance whose connection is open first sends the
    terminate message on that connection and arms a timer of 100 ms, leaving
    the socket open; transcripts the vendor sends during the wait still reach
    the queue and nothing else goes to the vendor; only when the timer fires
    is the socket closed, and then [close()] returns. *)
Theorem close_finalizes_waits_then_tears_down w id c msgs :
  _connectionPromise w = Some id ->
  sockets w !! id = Some c -> readyState c = OPEN -> promise c = Fulfilled ->
  let w1 := step CallClose w in
  let w2 := run (messages id msgs) w1 in
  let w3 := step (GraceTimeout id) w2 in
  trace w1 = trace w ++ [Console DebugSendingTerminate;
                         WsSend id (Text terminate_message);
                         SetTimeout 100 id]
  /\ socket_in w1 id [OPEN] = true
  /\ wire (trace w2) = wire (trace w1)
  /\ socket_in w2 id [OPEN] = true
  /\ _bufferIterator w2 = push_all (normalize_all msgs) (_bufferIterator w)
  /\ trace w3 = trace w2 ++ [WsClose id; Settled CloseCall (inr tt)]
  /\ socket_in w3 id [CLOSING] = true.
Proof.
  intros Hp Hs Hr Hf w1 w2 w3.
  assert (E1 : w1 = set_timers (timers w ++ [id])
      (add_traces [Console DebugSendingTerminate;
                   WsSend id (Text terminate_message);
                   SetTimeout 100 id] w)) by by eapply close_on_open.
  assert (Hs1 : sockets w1 !! id = Some c) by by rewrite E1.
  assert (Hin1 : socket_in w1 id [OPEN; CLOSING] = true).
  { rewrite (socket_in_lookup _ _ _ _ Hs1), Hr. reflexivity. }
  assert (E2 : w2 = deliver msgs w1) by by apply run_messages.
  destruct (deliver_spec msgs w1) as (_ & _ & Hss & Htm & Hq & Htr).
  rewrite <- E2 in Hss, Htm, Hq, Htr.
  assert (Hs2 : sockets w2 !! id = Some c) by by rewrite Hss.
  assert (Ht2 : elem_nat id (timers w2) = true).
  { rewrite Htm, E1. apply elem_nat_snoc. }
  assert (E3 : w3 = add_traces [WsClose id; Settled CloseCall (inr tt)]
      (set_sockets (alter (set_readyState CLOSING) id (sockets w2))
         (set_timers (remove_first id (timers w2)) w2)))
    by by eapply timeout_on_open.
  repeat split.
  - by rewrite E1.
  - rewrite (socket_in_lookup _ _ _ _ Hs1), Hr. reflexivity.
  - rewrite Htr, wire_app, wire_console. apply app_nil_r.
  - rewrite (socket_in_lookup _ _ _ _ Hs2), Hr. reflexivity.
  - rewrite Hq, E1. reflexivity.
  - by rewrite E3.
  - rewrite E3. unfold socket_in. simpl.
    rewrite list_lookup_alter_eq, Hs2. simpl. reflexivity.
Qed.

Lemma close_finalizes_waits_then_tears_down_witness :
  let w := run [CallSendAudio []; WsOpen 0] (new_AssemblyAISTT sample_config 0) in
  let w1 := step CallClose w in
  let w2 := run (messages 0 [(turn_message "turkey sandwich" true, 7)]) w1 in
  let w3 := step (GraceTimeout 0) w2 in
  trace w1 = trace w ++ [Console DebugSendingTerminate;
                         WsSend 0 (Text terminate_message);
                         SetTimeout 100 0]
  /\ socket_in w1 0 [OPEN] = true
  /\ wire (trace w2) = wire (trace w1)
  /\ socket_in w2 0 [OPEN] = true
  /\ _bufferIterator w2 =
       push_all (normalize_all [(turn_message "turkey sandwich" true, 7)])
                (_bufferIterator w)
  /\ trace w3 = trace w2 ++ [WsClose 0; Settled CloseCall (inr tt)]
  /\ socket_in w3 0 [CLOSING] = true.
Proof.
  refine (close_finalizes_waits_then_tears_down _ 0%nat
    {| url := connection_url sample_config; authorization := "key";
       readyState := OPEN; promise := Fulfilled; waiters := [] |} _ _ _ _ _);
    reflexivity.
Defined.











(** *** Sending audio once the connection has closed *)

Lemma rejections_snoc t e :
  rejections (t ++ [e]) =
  rejections t ++ match e with Settled c (inl x) => [(c, x)] | _ => [] end.
Proof.
  unfold rejections. rewrite omap_app. f_equal. by destruct e as [| | | | |? []|].
Qed.

(** [sendAudio] with no connection promise: a socket is dialled and the
    buffer waits for it to open. *)
Lemma sendAudio_on_null w buffer :
  _connectionPromise w = None ->
  step (CallSendAudio buffer) w =
    set_connectionPromise (Some (length (sockets w)))
      (add_trace (NewWebSocket (length (sockets w)) (connection_url (this w))
                    (apiKey (this w)))
         (set_sockets (sockets w ++
            [{| url := connection_url (this w); authorization := apiKey (this w);
                readyState := CONNECTING; promise := Unsettled;
                waiters := [SendAudioK buffer] |}]) w)).
Proof.
  intros Hp. destruct w as [cfg q p ss tm ck tr]. simpl in *. subst p.
  step_unfold. simpl.
  rewrite list_lookup_middle by done. simpl.
  rewrite alter_app_r_alt by done. rewrite Nat.sub_diag. reflexivity.
Qed.

(** The socket opens with one [sendAudio] waiting: the buffer is sent. *)
Lemma open_sends_waiting_audio w id c buffer :
  sockets w !! id = Some c ->
  readyState c = CONNECTING -> promise c = Unsettled ->
  waiters c = [SendAudioK buffer] ->
  trace (step (WsOpen id) w) =
    trace w ++ [WsSend id (Binary buffer); Settled (SendAudioCall buffer) (inr tt)].
Proof.
  intros Hs Hr Hf Hw. destruct w as [cfg q p ss tm ck tr]. simpl in *.
  step_unfold.
  repeat (simpl; first [rewrite list_lookup_alter_eq | rewrite Hs | rewrite Hr]).
  simpl. destruct c as [u a r pr ws]. simpl in *. subst.
  repeat (simpl; first [rewrite list_lookup_alter_eq | rewrite Hs]).
  simpl. step_unfold.
  repeat (simpl; first [rewrite list_lookup_alter_eq | rewrite Hs]).
  simpl. by rewrite <- app_assoc.
Qed.

(** C5, as amended: [sendAudio] on an instance whose connection has closed
    (the "close" handler has reset the connection promise) is not rejected:
    it dials a new vendor connection with the same URL and key, and the
    buffer is sent on it when it opens. *)
Theorem sendAudio_after_close_reconnects w buffer :
  _connectionPromise w = None ->
  let id := length (sockets w) in
  let w1 := step (CallSendAudio buffer) w in
  let w2 := step (WsOpen id) w1 in
  trace w1 = trace w ++ [NewWebSocket id (connection_url (this w)) (apiKey (this w))]
  /\ _connectionPromise w1 = Some id
  /\ rejections (trace w1) = rejections (trace w)
  /\ trace w2 = trace w1 ++ [WsSend id (Binary buffer);
                             Settled (SendAudioCall buffer) (inr tt)].
Proof.
  intros Hp id w1 w2. subst w2 w1.
  rewrite sendAudio_on_null by done. fold id.
  split; [done|]. split; [done|]. split.
  { simpl. rewrite rejections_snoc. apply app_nil_r. }
  apply (open_sends_waiting_audio _ _
    {| url := connection_url (this w); authorization := apiKey (this w);
       readyState := CONNECTING; promise := Unsettled;
       waiters := [SendAudioK buffer] |}); [|reflexivity..].
  simpl. by apply list_lookup_middle.
Qed.

Lemma sendAudio_after_close_reconnects_witness :
  let w := run [CallSendAudio []; WsOpen 0; CallClose; GraceTimeout 0; WsClosed 0]
               (new_AssemblyAISTT sample_config 0) in
  let w1 := step (CallSendAudio [Byte.x01]) w in
  let w2 := step (WsOpen 1) w1 in
  trace w1 = trace w ++ [NewWebSocket 1 (connection_url sample_config) "key"]
  /\ _connectionPromise w1 = Some 1%nat
  /\ rejections (trace w1) = rejections (trace w)
  /\ trace w2 = trace w1 ++ [WsSend 1 (Binary [Byte.x01]);
                             Settled (SendAudioCall [Byte.x01]) (inr tt)].
Proof.
  refine (sendAudio_after_close_reconnects _ [Byte.x01] _). reflexivity.
Defined.

(** C5, as the specification states it, fails: after [close()] has completed
    and the socket has closed, [sendAudio] is not rejected and a second
    vendor connection is dialled. *)
Lemma sendAudio_after_close_is_not_rejected :
  let w := run [CallSendAudio []; WsOpen 0; CallClose; GraceTimeout 0; WsClosed 0]
               (new_AssemblyAISTT sample_config 0) in
  let w1 := step (CallSendAudio [Byte.x01]) w in
  socket_in w 0 [CLOSED] = true
  /\ _connectionPromise w = None
  /\ rejections (trace w1) = []
  /\ wire (trace w1) =
       wire (trace w) ++ [NewWebSocket 1 (connection_url sample_config) "key"].
Proof. repeat split; reflexivity. Qed.

(** *** Secrets and the API key *)

Lemma process_env_set_other key value (e e' : gmap string string) name :
  process_env_set key value e = Some e' ->
  name <> c_string key \/ settable name = false -> e' !! name = e !! name.
Proof.
  unfold process_env_set. destruct (js_ToString value) as [s|]; [|done].
  intros [= <-] Hn. destruct (settable (c_string key)) eqn:Hs; [|done].
  apply lookup_insert_ne. intros <-. destruct Hn; congruence.
Qed.

Lemma export_entries_other entries (e : gmap string string) name :
  name ∉ exported_names entries \/ settable name = false ->
  (export_entries entries e).2 !! name = e !! name.
Proof.
  revert e. induction entries as [|[k v] entries IH]; intros e Hn; [done|].
  simpl. destruct (process_env_set k v e) as [e'|] eqn:Hset; [|done].
  rewrite IH.
  - apply (process_env_set_other _ _ _ _ _ Hset).
    destruct Hn as [Hn|Hn]; [left|by right].
    intros ->. apply Hn. simpl. by left.
  - destruct Hn as [Hn|Hn]; [left|by right].
    intros Hin. apply Hn. simpl. by right.
Qed.

Lemma export_entries_lookup entries (e : gmap string string) k v s :
  NoDup (exported_names entries) -> (k, v) ∈ entries ->
  (export_entries entries e).1 = None ->
  js_ToString v = Some s -> settable (c_string k) = true ->
  (export_entries entries e).2 !! c_string k = Some (c_string s).
Proof.
  revert e. induction entries as [|[k' v'] entries IH]; intros e Hnd Hin Hok Hv Hk.
  - by apply elem_of_nil in Hin.
  - simpl in Hnd. apply NoDup_cons in Hnd as [Hfresh Hnd].
    simpl in *. destruct (process_env_set k' v' e) as [e'|] eqn:Hset; [|done].
    apply elem_of_cons in Hin as [[= <- <-] | Hin].
    + rewrite export_entries_other by (by left).
      unfold process_env_set in Hset. rewrite Hv, Hk in Hset.
      injection Hset as <-. apply lookup_insert_eq.
    + by apply IH.
Qed.

(** When the export loop throws, it throws a [TypeError] at the first value
    that has no string form, with the entries before it already written. *)
Lemma export_entries_throws entries (e e' : gmap string string) x :
  export_entries entries e = (Some x, e') ->
  x = TypeError
  /\ exists written k v rest,
       entries = written ++ (k, v) :: rest
       /\ js_ToString v = None
       /\ export_entries written e = (None, e').
Proof.
  revert e. induction entries as [|[k v] entries IH]; intros e H; [done|].
  simpl in H. destruct (process_env_set k v e) as [e1|] eqn:Hset.
  - destruct (IH _ H) as [-> (written & k' & v' & rest & -> & Hv & Hw)].
    split; [done|]. exists ((k, v) :: written), k', v', rest.
    split; [done|]. split; [done|]. simpl. by rewrite Hset.
  - injection H as <- <-. split; [done|]. exists [], k, v, entries.
    split; [done|]. split; [|done].
    unfold process_env_set in Hset. by destruct (js_ToString v).
Qed.

(** A falsy value that has entries at all has none. *)
Lemma falsy_no_entries j entries :
  truthy_value j = false -> Object_entries j = Some entries -> entries = [].
Proof.
  destruct j as [|b|n|s|items|fields]; simpl; try done.
  - by intros _ [= <-].
  - by intros _ [= <-].
  - destruct (String.eqb_spec s "") as [->|]; [|done]. by intros _ [= <-].
Qed.

Lemma getSecrets_cached response p :
  truthy_value (cachedSecrets p) = true ->
  getSecrets response p = (inr (cachedSecrets p), p).
Proof. intros H. unfold getSecrets. by rewrite H. Qed.

(** What a call of [getSecrets] that finds no truthy cache and a non-empty
    [SECRETS_ARN] does. *)
Lemma getSecrets_fetching response p arn :
  truthy_value (cachedSecrets p) = false ->
  env p !! "SECRETS_ARN" = Some arn -> arn <> "" ->
  getSecrets response p =
    let p1 := {| env := env p; cachedSecrets := cachedSecrets p;
                 fetches := fetches p ++ [arn] |} in
    match response with
    | SendFails e => (inl e, p1)
    | Response None | Response (Some (Garbage "")) =>
        (inl (ErrorMsg "Secret value is empty"), p1)
    | Response (Some (Garbage _)) => (inl SyntaxError, p1)
    | Response (Some (Json j)) =>
        match Object_entries j with
        | None =>
            (inl TypeError,
             {| env := env p; cachedSecrets := j; fetches := fetches p ++ [arn] |})
        | Some entries =>
            (match (export_entries entries (env p)).1 with
             | Some e => inl e
             | None => inr j
             end,
             {| env := (export_entries entries (env p)).2; cachedSecrets := j;
                fetches := fetches p ++ [arn] |})
        end
    end.
Proof.
  intros Hc Ha Hne. unfold getSecrets. rewrite Hc, Ha.
  apply String.eqb_neq in Hne. rewrite Hne. simpl.
  destruct response as [|[[[|]|j]|]]; try done.
  destruct (Object_entries j); [|done].
  by destruct (export_entries _ _).
Qed.

(** Without a truthy cache and without a non-empty [SECRETS_ARN] the call
    fails at once. *)
Lemma getSecrets_no_arn response p :
  truthy_value (cachedSecrets p) = false ->
  truthy_str (env p !! "SECRETS_ARN") = false ->
  getSecrets response p =
    (inl (ErrorMsg "SECRETS_ARN environment variable not set"), p).
Proof.
  intros Hc Ha. unfold getSecrets. rewrite Hc.
  destruct (env p !! "SECRETS_ARN") as [arn|]; [|done].
  simpl in Ha. apply negb_false_iff in Ha. by rewrite Ha.
Qed.

Lemma arn_cases (e : gmap string string) :
  truthy_str (e !! "SECRETS_ARN") = false
  \/ exists arn, e !! "SECRETS_ARN" = Some arn /\ arn <> "".
Proof.
  destruct (e !! "SECRETS_ARN") as [arn|]; [|by left]. simpl.
  destruct (String.eqb_spec arn ""); [by left|right; eauto].
Qed.

(** What a successful call of [getSecrets] did: it answered from a truthy
    cache and changed nothing, or it asked the service once, parsed the
    secret and ran the export loop to its end. *)
Lemma getSecrets_success_cases response p secrets p1 :
  getSecrets response p = (inr secrets, p1) ->
  (truthy_value (cachedSecrets p) = true /\ p1 = p /\ secrets = cachedSecrets p)
  \/ (truthy_value (cachedSecrets p) = false
      /\ exists arn entries,
           env p !! "SECRETS_ARN" = Some arn /\ arn <> ""
           /\ parsed_secret response = Some secrets
           /\ Object_entries secrets = Some entries
           /\ export_entries entries (env p) = (None, env p1)
           /\ fetches p1 = fetches p ++ [arn]
           /\ cachedSecrets p1 = secrets).
Proof.
  intros H. destruct (truthy_value (cachedSecrets p)) eqn:Hn.
  { left. rewrite getSecrets_cached in H by done. by injection H as <- <-. }
  right. split; [done|].
  destruct (arn_cases (env p)) as [Ha|(arn & Ha & Hne)].
  { by rewrite getSecrets_no_arn in H. }
  rewrite (getSecrets_fetching _ _ arn) in H by done. simpl in H.
  destruct response as [|[[[|]|j]|]]; try done.
  destruct (Object_entries j) as [entries|] eqn:Ho; [|done].
  destruct (export_entries entries (env p)) as [thrown env'] eqn:He.
  simpl in H. destruct thrown; [done|]. injection H as <- <-.
  exists arn, entries. by rewrite He.
Qed.

Lemma getSecrets_success_caches response p secrets p1 :
  getSecrets response p = (inr secrets, p1) -> cachedSecrets p1 = secrets.
Proof.
  intros [(_ & -> & ->) | (_ & arn & entries & _ & _ & _ & _ & _ & _ & H)]
    %getSecrets_success_cases; done.
Qed.

(** A falsy secret: fetched, nothing exported, and the next call fetches
    again. *)
Lemma getSecrets_falsy_success response p secrets p1 :
  getSecrets response p = (inr secrets, p1) -> truthy_value secrets = false ->
  env p1 = env p
  /\ exists arn, fetches p1 = fetches p ++ [arn]
       /\ truthy_value (cachedSecrets p1) = false
       /\ env p1 !! "SECRETS_ARN" = Some arn /\ arn <> "".
Proof.
  intros [(Ht & -> & ->) | (_ & arn & entries & Ha & Hne & _ & Ho & He & Hf & Hc)]
    %getSecrets_success_cases Hf'; [congruence|].
  rewrite (falsy_no_entries _ _ Hf' Ho) in He. injection He as He.
  split; [done|]. exists arn. split; [done|]. split; [congruence|].
  split; [congruence|done].
Qed.

Lemma getSecrets_fetches_again response p arn :
  truthy_value (cachedSecrets p) = false ->
  env p !! "SECRETS_ARN" = Some arn -> arn <> "" ->
  fetches (getSecrets response p).2 = fetches p ++ [arn].
Proof.
  intros Hc Ha Hne. rewrite (getSecrets_fetching _ _ arn) by done. simpl.
  destruct response as [|[[[|]|j]|]]; try done.
  by destruct (Object_entries j).
Qed.

(** C8, as amended. Once [getSecrets] has returned a truthy value, every
    later call returns the same value without asking the secrets service and
    without changing anything. A falsy value ([0], [false], the empty
    string) is returned but not remembered: the next call asks the service
    again. The successful call that did ask asked once, for the secret named
    by [SECRETS_ARN], and wrote its entries into [process.env]: an entry whose
    name the environment accepts has its value there, as a string, and a name
    the environment refuses is left alone. The constructor of the adapter
    uses a non-empty key given in its options, whatever the environment
    holds, and otherwise the environment variable [ASSEMBLYAI_API_KEY]. *)
Theorem secrets_cached_after_success_key_from_env
    response p secrets p1 response' options key :
  getSecrets response p = (inr secrets, p1) ->
  (truthy_value secrets = true -> getSecrets response' p1 = (inr secrets, p1))
  /\ (truthy_value secrets = false ->
        env p1 = env p
        /\ exists arn, fetches p1 = fetches p ++ [arn]
             /\ fetches (getSecrets response' p1).2 = fetches p ++ [arn; arn])
  /\ (truthy_value (cachedSecrets p) = false ->
        parsed_secret response = Some secrets
        /\ (exists arn, env p !! "SECRETS_ARN" = Some arn
              /\ fetches p1 = fetches p ++ [arn])
        /\ exists entries,
             Object_entries secrets = Some entries
             /\ export_entries entries (env p) = (None, env p1)
             /\ (forall k v s, NoDup (exported_names entries) -> (k, v) ∈ entries ->
                   js_ToString v = Some s -> settable (c_string k) = true ->
                   env p1 !! c_string k = Some (c_string s))
             /\ (forall name, settable name = false ->
                   env p1 !! name = env p !! name))
  /\ (truthy_str (opt_apiKey options) = false ->
      env p1 !! ASSEMBLYAI_API_KEY = Some key -> key <> "" ->
      exists c, constructor options (env p1) = inr c /\ apiKey c = key)
  /\ (opt_apiKey options = Some key -> key <> "" ->
      forall e, exists c, constructor options e = inr c /\ apiKey c = key).
Proof.
  intros H. pose proof (getSecrets_success_caches _ _ _ _ H) as Hc.
  split; [|split; [|split; [|split]]].
  - intros Ht. rewrite <- Hc in *. by apply getSecrets_cached.
  - intros Hf.
    destruct (getSecrets_falsy_success _ _ _ _ H Hf) as (He & arn & Hf1 & Hc1 & Ha & Hne).
    split; [done|]. exists arn. split; [done|].
    rewrite (getSecrets_fetches_again _ _ arn) by done.
    by rewrite Hf1, <- app_assoc.
  - intros Hn.
    destruct (getSecrets_success_cases _ _ _ _ H)
      as [(Ht & _) | (_ & arn & entries & Ha & Hne & Hp & Ho & He & Hf1 & _)];
      [congruence|].
    split; [done|]. split; [eauto|]. exists entries.
    split; [done|]. split; [done|]. split.
    + intros k v s Hnd Hin Hv Hk.
      pose proof (export_entries_lookup entries (env p) k v s Hnd Hin) as L.
      rewrite He in L. by apply L.
    + intros name Hs.
      pose proof (export_entries_other entries (env p) name (or_intror Hs)) as L.
      by rewrite He in L.
  - intros Ho He Hk. rewrite constructor_cases. unfold or_str. rewrite Ho, He.
    apply truthy_str_Some in Hk. rewrite Hk. eauto.
  - intros Ho Hk e. rewrite constructor_cases. unfold or_str. rewrite Ho.
    apply truthy_str_Some in Hk. rewrite Hk. cbv beta iota. rewrite Hk. eauto.
Qed.

Lemma secrets_cached_after_success_key_from_env_witness :
  let p := {| env := {[ "SECRETS_ARN" := "arn:aws:secretsmanager:voice" ]};
              cachedSecrets := JNull; fetches := [] |} in
  let secrets := JObj [("ASSEMBLYAI_API_KEY", JStr "aai-key")] in
  let p1 := snd (getSecrets (Response (Some (Json secrets))) p) in
  getSecrets (SendFails (SocketError "unreachable")) p1 = (inr secrets, p1)
  /\ fetches p1 = ["arn:aws:secretsmanager:voice"]
  /\ exists c,
       constructor {| opt_apiKey := None; opt_sampleRate := None;
                      opt_formatTurns := None |} (env p1) = inr c
       /\ apiKey c = "aai-key".
Proof.
  intros p secrets p1.
  destruct (secrets_cached_after_success_key_from_env
              (Response (Some (Json secrets))) p secrets p1
              (SendFails (SocketError "unreachable"))
              {| opt_apiKey := None; opt_sampleRate := None; opt_formatTurns := None |}
              "aai-key" eq_refl) as (H1 & _ & _ & H3 & _).
  split; [apply H1; reflexivity|]. split; [reflexivity|].
  apply H3; [reflexivity | reflexivity | discriminate].
Defined.

(** C8, as the specification states it, fails: the constructor looks the key
    up in [process.env] when its options carry none, so the same options
    give an instance under one environment and an error under another; and
    the loader hands the secrets over through [process.env]. *)
Lemma constructor_reads_process_env :
  let options := {| opt_apiKey := None; opt_sampleRate := None;
                    opt_formatTurns := None |} in
  let p := {| env := {[ "SECRETS_ARN" := "arn:aws:secretsmanager:voice" ]};
              cachedSecrets := JNull; fetches := [] |} in
  let p1 := snd (getSecrets
                   (Response (Some (Json (JObj [("ASSEMBLYAI_API_KEY", JStr "aai-key")])))) p) in
  constructor options (env p) = inl (ErrorMsg "AssemblyAI API key is required")
  /\ constructor options (env p1) =
       inr {| apiKey := "aai-key"; sampleRate := 16000; formatTurns := true |}
  /\ ~ (forall e1 e2 : gmap string string, constructor options e1 = constructor options e2).
Proof.
  split; [reflexivity|]. split; [reflexivity|].
  intros H.
  specialize (H ∅ {[ ASSEMBLYAI_API_KEY := "aai-key" ]}). discriminate H.
Qed.

(** *** The Lambda entry point and its secrets *)

Lemma route_status event :
  statusCode (route event).1 = 200 \/ statusCode (route event).1 = 400.
Proof.
  unfold route. destruct (routeKey event) as [k|]; [|by right].
  repeat (destruct (String.eqb k _); [by left|]). by right.
Qed.

(** X1: the entry point never fails: it answers 500 with the body
    [{"error":"Internal server error"}] exactly when the secrets cannot be
    resolved, whatever the route; otherwise it answers 400 exactly when the
    route key is absent or none of [$connect], [$disconnect], [$default], and
    200 in the remaining cases. The process is left as [getSecrets] leaves
    it. *)
Theorem handler_status response event p :
  let result := (handler response event p).1.1 in
  (handler response event p).2 = (getSecrets response p).2
  /\ (statusCode result = 500 <-> exists e, (getSecrets response p).1 = inl e)
  /\ (statusCode result = 500 -> body result = internal_server_error)
  /\ (statusCode result = 400 <->
        (exists s, (getSecrets response p).1 = inr s)
        /\ routeKey event <> Some "$connect"
        /\ routeKey event <> Some "$disconnect"
        /\ routeKey event <> Some "$default")
  /\ (statusCode result = 200 \/ statusCode result = 400 \/ statusCode result = 500).
Proof.
  unfold handler. destruct (getSecrets response p) as [[e|s] p'] eqn:Hg; simpl.
  - repeat split; try done; eauto.
    + by intros [[s Hs] _].
  - destruct (route event) as [result lines] eqn:Hr. simpl.
    pose proof (route_status event) as Hst. rewrite Hr in Hst. simpl in Hst.
    split; [done|]. split; [|split; [|split]].
    + split; [lia | by intros [e ?]].
    + lia.
    + clear Hst. revert Hr. unfold route. destruct (routeKey event) as [k|].
      * destruct (String.eqb_spec k "$connect") as [->|H1]; intros Hr.
        { injection Hr as <- _. simpl. split; [done | by intros (_ & ? & _)]. }
        revert Hr. destruct (String.eqb_spec k "$disconnect") as [->|H2]; intros Hr.
        { injection Hr as <- _. simpl. split; [done | by intros (_ & _ & ? & _)]. }
        revert Hr. destruct (String.eqb_spec k "$default") as [->|H3]; intros Hr.
        { injection Hr as <- _. simpl. split; [done | by intros (_ & _ & _ & ?)]. }
        injection Hr as <- _. simpl. split; [|done]. intros _.
        split; [eauto|]. repeat split; congruence.
      * intros Hr. injection Hr as <- _. simpl. split; [|done]. intros _.
        split; [eauto|]. done.
    + destruct Hst; auto.
Qed.

Lemma handler_status_witness :
  body (handler (Response None) {| routeKey := Some "$connect"; connectionId := Some "c1" |}
          {| env := {[ "SECRETS_ARN" := "arn" ]}; cachedSecrets := JNull; fetches := [] |}).1.1
  = internal_server_error.
Proof.
  refine (proj1 (proj2 (proj2 (handler_status _ _ _))) _). reflexivity.
Defined.

Lemma handler_cached response event p :
  truthy_value (cachedSecrets p) = true ->
  (handler response event p).2 = p
  /\ (handler response event p).1.1 = (route event).1.
Proof.
  intros H. unfold handler. rewrite (getSecrets_cached _ _ H).
  by destruct (route event).
Qed.

Lemma invoke_all_cached calls p :
  truthy_value (cachedSecrets p) = true ->
  (invoke_all calls p).2 = p
  /\ Forall (fun r => statusCode r <> 500) (invoke_all calls p).1.
Proof.
  intros H. induction calls as [|[response event] calls [IH1 IH2]]; [done|].
  simpl. destruct (handler_cached response event p H) as [Hp Hr].
  destruct (handler response event p) as [[result lines] p']. simpl in *. subst p'.
  destruct (invoke_all calls p) as [results p'']. simpl in *.
  split; [done|]. constructor; [|done].
  rewrite Hr. destruct (route_status event) as [-> | ->]; done.
Qed.

(** X2: an invocation of the entry point that answers anything but 500 asked
    the secrets service at most once. If it leaves a truthy value in the
    cache, the secrets stay cached for the life of the process: every later
    invocation, whatever the secrets service would answer, asks it nothing,
    leaves the process (environment, cache, fetch log) unchanged and never
    answers 500. If the secret was falsy ([0], [false] or the empty string),
    nothing was exported and nothing is cached: the next invocation asks the
    service again, and answers 500 when that request yields no JSON. *)
Theorem handler_warm response event p calls :
  statusCode (handler response event p).1.1 <> 500 ->
  let p1 := (handler response event p).2 in
  (truthy_value (cachedSecrets p1) = true ->
     (invoke_all calls p1).2 = p1
     /\ Forall (fun r => statusCode r <> 500) (invoke_all calls p1).1)
  /\ (truthy_value (cachedSecrets p1) = false ->
        env p1 = env p
        /\ forall response' event',
             (exists arn, fetches (handler response' event' p1).2 = fetches p1 ++ [arn])
             /\ (parsed_secret response' = None ->
                   statusCode (handler response' event' p1).1.1 = 500))
  /\ (length (fetches p1) <= S (length (fetches p)))%nat.
Proof.
  intros Hs p1.
  assert (Hg : exists s, getSecrets response p = (inr s, p1)).
  { subst p1. unfold handler in *.
    destruct (getSecrets response p) as [[e|s] p'] eqn:Hg; [done|].
    destruct (route event). simpl. eauto. }
  clearbody p1. clear Hs. destruct Hg as [s Hg].
  pose proof (getSecrets_success_caches _ _ _ _ Hg) as Hc.
  split; [|split].
  - intros Ht. by apply invoke_all_cached.
  - intros Hf. rewrite Hc in Hf.
    destruct (getSecrets_falsy_success _ _ _ _ Hg Hf) as (He & arn & Hf1 & Hc1 & Ha & Hne).
    split; [done|]. intros response' event'.
    pose proof (getSecrets_fetches_again response' p1 arn Hc1 Ha Hne) as Hagain.
    unfold handler.
    destruct (getSecrets response' p1) as [[e|s'] p2] eqn:Hg2; simpl in *.
    + split; [eauto | done].
    + destruct (route event') as [result lines]. simpl. split; [eauto|].
      intros Hp.
      destruct (getSecrets_success_cases _ _ _ _ Hg2)
        as [(Ht & _) | (_ & ? & ? & _ & _ & Hp' & _)]; congruence.
  - destruct (getSecrets_success_cases _ _ _ _ Hg)
      as [(_ & -> & _) | (_ & arn & entries & _ & _ & _ & _ & _ & -> & _)].
    + lia.
    + rewrite length_app. simpl. lia.
Qed.

Lemma handler_warm_witness :
  let p := {| env := {[ "SECRETS_ARN" := "arn" ]}; cachedSecrets := JNull; fetches := [] |} in
  let p1 := (handler (Response (Some (Json (JObj [("ASSEMBLYAI_API_KEY", JStr "k")]))))
               {| routeKey := Some "$connect"; connectionId := Some "c1" |} p).2 in
  let calls := [(SendFails (SocketError "down"),
                 {| routeKey := Some "$default"; connectionId := Some "c1" |});
                (Response None,
                 {| routeKey := Some "$disconnect"; connectionId := Some "c1" |})] in
  (invoke_all calls p1).2 = p1
  /\ Forall (fun r => statusCode r <> 500) (invoke_all calls p1).1.
Proof.
  intros p p1 calls.
  refine (proj1 (handler_warm _ _ p calls _) _).
  - vm_compute. discriminate.
  - reflexivity.
Defined.

(** X3: a call of [getSecrets] that fails found no truthy cache. If it fails
    before the secret is parsed (no [SECRETS_ARN], a failed request, an empty
    or non-JSON secret), it caches nothing and leaves [process.env] as it
    was, so the next call asks again. If it fails after the secret is
    parsed, the error is a [TypeError] and the parsed value is already in
    the cache: for [null] nothing is exported and the next call asks again;
    for a value with an entry that has no string form, the entries before
    that one are in [process.env], the rest are not exported, and later calls
    return the cached value without exporting them. The call asks the
    service at most once, and not at all when [SECRETS_ARN] is unset or
    empty, in which case the error says so. *)
Theorem getSecrets_failure_caches_only_after_parsing response p e p1 :
  getSecrets response p = (inl e, p1) ->
  truthy_value (cachedSecrets p) = false
  /\ (truthy_str (env p !! "SECRETS_ARN") = false ->
        p1 = p /\ e = ErrorMsg "SECRETS_ARN environment variable not set")
  /\ (forall arn, env p !! "SECRETS_ARN" = Some arn -> arn <> "" ->
        fetches p1 = fetches p ++ [arn]
        /\ (parsed_secret response = None ->
              cachedSecrets p1 = cachedSecrets p /\ env p1 = env p
              /\ forall response',
                   fetches (getSecrets response' p1).2 = fetches p ++ [arn; arn])
        /\ (forall j, parsed_secret response = Some j ->
              e = TypeError /\ cachedSecrets p1 = j
              /\ (j = JNull -> env p1 = env p
                    /\ forall response',
                         fetches (getSecrets response' p1).2 = fetches p ++ [arn; arn])
              /\ (forall entries, Object_entries j = Some entries ->
                    (exists written k v rest,
                       entries = written ++ (k, v) :: rest
                       /\ js_ToString v = None
                       /\ export_entries written (env p) = (None, env p1))
                    /\ forall response', getSecrets response' p1 = (inr j, p1)))).
Proof.
  intros H.
  assert (Hc : truthy_value (cachedSecrets p) = false).
  { destruct (truthy_value (cachedSecrets p)) eqn:Hc; [|done].
    by rewrite getSecrets_cached in H. }
  split; [done|]. split.
  - intros Ha. rewrite getSecrets_no_arn in H by done. by injection H as <- <-.
  - intros arn Ha Hne.
    assert (Hagain : forall p', env p' = env p -> truthy_value (cachedSecrets p') = false ->
              fetches p' = fetches p ++ [arn] ->
              forall response', fetches (getSecrets response' p').2 = fetches p ++ [arn; arn]).
    { intros p' He' Hc' Hf' response'.
      rewrite (getSecrets_fetches_again _ _ arn); [|done|congruence|done].
      by rewrite Hf', <- app_assoc. }
    rewrite (getSecrets_fetching _ _ arn) in H by done. simpl in H.
    destruct response as [|[[[|]|j]|]]; simpl.
    1-3, 5: injection H as <- <-; simpl; split; [done|]; split; [|done];
         intros _; split; [done|]; split; [done|]; by apply Hagain.
    destruct (Object_entries j) as [entries|] eqn:Ho.
    + destruct (export_entries entries (env p)) as [thrown env'] eqn:He.
      simpl in H. destruct thrown as [x|]; [|done]. injection H as <- <-. simpl.
      destruct (export_entries_throws _ _ _ _ He) as [-> Hw].
      split; [done|]. split; [done|]. intros j' [= <-].
      split; [done|]. split; [done|]. split.
      * intros ->. done.
      * intros entries' Ho'. rewrite Ho in Ho'. injection Ho' as <-.
        split; [done|]. intros response'.
        apply getSecrets_cached. simpl.
        destruct (truthy_value j) eqn:Ht; [done|].
        by rewrite (falsy_no_entries _ _ Ht Ho) in He.
    + injection H as <- <-. simpl.
      split; [done|]. split; [done|]. intros j' [= <-].
      split; [done|]. split; [done|]. split.
      * intros ->. split; [done|]. by apply Hagain.
      * intros entries' Ho'. congruence.
Qed.

Lemma getSecrets_failure_caches_only_after_parsing_witness :
  let p := {| env := {[ "SECRETS_ARN" := "arn" ]}; cachedSecrets := JNull; fetches := [] |} in
  let j := JObj [("A", JStr "1"); ("B", JObj [("toString", JNum 1)]); ("C", JStr "3")] in
  let p1 := (getSecrets (Response (Some (Json j))) p).2 in
  fetches p1 = ["arn"]
  /\ env p1 !! "A" = Some "1" /\ env p1 !! "C" = None
  /\ forall response', getSecrets response' p1 = (inr j, p1).
Proof.
  intros p j p1.
  destruct (getSecrets_failure_caches_only_after_parsing (Response (Some (Json j))) p
              TypeError p1 eq_refl) as (_ & _ & H).
  destruct (H "arn" eq_refl) as (Hf & _ & Hj); [discriminate|].
  destruct (Hj j eq_refl) as (_ & _ & _ & He).
  destruct (He _ eq_refl) as [_ Hcached].
  split; [exact Hf|]. split; [reflexivity|]. split; [reflexivity|exact Hcached].
Defined.

(** X4: a successful [getSecrets] that had to ask the service sets only
    variables named by the entries of the secret: every other variable of
    [process.env], and every name the environment refuses, keeps its value.
    A call answered from the cache does not export again: it leaves the
    process as it finds it. *)
Theorem getSecrets_export_frame response p secrets p1 :
  getSecrets response p = (inr secrets, p1) ->
  (exists entries, Object_entries secrets = Some entries
     /\ forall k, k ∉ exported_names entries \/ settable k = false ->
          env p1 !! k = env p !! k)
  /\ (truthy_value (cachedSecrets p) = true -> p1 = p).
Proof.
  intros [(Ht & -> & ->) | (Hn & arn & entries & _ & _ & _ & Ho & He & _)]
    %getSecrets_success_cases.
  - split; [|done]. destruct (cachedSecrets p); try done; simpl; eauto.
  - split; [|congruence]. exists entries. split; [done|]. intros k Hk.
    pose proof (export_entries_other entries (env p) k Hk) as L.
    by rewrite He in L.
Qed.

Lemma getSecrets_export_frame_witness :
  let p := {| env := {[ "SECRETS_ARN" := "arn" ]}; cachedSecrets := JNull; fetches := [] |} in
  let p1 := (getSecrets (Response (Some (Json (JObj [("ASSEMBLYAI_API_KEY", JStr "k")])))) p).2 in
  env p1 !! "SECRETS_ARN" = Some "arn".
Proof.
  intros p p1.
  destruct (getSecrets_export_frame
              (Response (Some (Json (JObj [("ASSEMBLYAI_API_KEY", JStr "k")])))) p
              (JObj [("ASSEMBLYAI_API_KEY", JStr "k")]) p1 eq_refl) as [(entries & Ho & H) _].
  injection Ho as <-.
  rewrite (H "SECRETS_ARN"); [reflexivity|].
  left. simpl. intros [=]%list_elem_of_singleton.
Defined.

(** *** Frame rules, for any relation the primitive steps keep *)

Section Frame.
Context (R : World -> World -> Prop) `{!Reflexive R} `{!Transitive R}.
Hypothesis Hemit : forall e, quiet e = true -> keeps R (emit e).
Hypothesis Hsock : forall id f,
  (forall c, readyState (f c) = readyState c) -> keeps R (update_socket id f).
Hypothesis Hclose : forall id, keeps R (ws_close id).
Hypothesis Htimers : forall f, keeps R (modify (fun w => set_timers (f w) w)).
Hypothesis Hcancel : keeps R buffer_cancel.

Ltac frame_prims :=
  first [ apply Hclose | apply Htimers | apply Hcancel
        | apply Hemit; reflexivity
        | apply Hsock; by intros []
        | unfold settle; apply Hemit; reflexivity
        | unfold console_log; apply Hemit; reflexivity ].

Lemma frame_socket_state id : keeps R (socket_state id).
Proof. apply keeps_gets; apply _. Qed.

Lemma frame_ws_send id f : keeps R (ws_send id f).
Proof.
  unfold ws_send. repeat keeps_step; try apply frame_socket_state; frame_prims.
Qed.

Lemma frame_resume id k o : keeps R (resume id k o).
Proof.
  unfold resume. destruct k, o; repeat keeps_step;
    first [ apply frame_ws_send | frame_prims ].
Qed.

Lemma frame_run_waiters id o ks : keeps R (run_waiters id o ks).
Proof.
  induction ks as [|k ks IH]; simpl; repeat keeps_step;
    first [ apply frame_resume | apply IH ].
Qed.

Lemma frame_settle_promise id p o : keeps R (settle_promise id p o).
Proof.
  unfold settle_promise. repeat keeps_step;
    first [ apply frame_run_waiters | frame_prims ].
Qed.

Lemma frame_await id k : keeps R (await id k).
Proof.
  unfold await. repeat keeps_step; first [ apply frame_resume | frame_prims ].
Qed.

Lemma frame_close : keeps R close.
Proof.
  unfold close. repeat keeps_step; first [ apply frame_await | frame_prims ].
Qed.

Lemma frame_on_open id : keeps R (on_open id).
Proof. apply frame_settle_promise. Qed.

Lemma frame_on_error id e : keeps R (on_error id e).
Proof.
  unfold on_error. repeat keeps_step;
    first [ apply frame_settle_promise | frame_prims ].
Qed.

Lemma frame_on_timeout id : keeps R (on_timeout id).
Proof. unfold on_timeout. repeat keeps_step; frame_prims. Qed.
End Frame.

(** *** Connections are reused *)

#[local] Instance same_dials_refl : Reflexive same_dials.
Proof. by intros w. Qed.
#[local] Instance same_dials_trans : Transitive same_dials.
Proof. unfold same_dials. intros a b c (?&?&?) (?&?&?). repeat split; congruence. Qed.

Lemma dialled_snoc t e :
  dialled (t ++ [e]) =
  dialled t ++ match e with NewWebSocket id u a => [(id, u, a)] | _ => [] end.
Proof. unfold dialled. rewrite omap_app. f_equal. by destruct e. Qed.

Lemma same_dials_emit e : quiet e = true -> keeps same_dials (emit e).
Proof.
  intros He w. split; [|done]. simpl. rewrite dialled_snoc.
  destruct e; try done; apply app_nil_r.
Qed.

Lemma same_dials_update_socket id f : keeps same_dials (update_socket id f).
Proof. intros w. split; [done|]. split; [|done]. simpl. apply length_alter. Qed.

Lemma same_dials_ws_close id : keeps same_dials (ws_close id).
Proof.
  unfold ws_close. repeat keeps_step;
    first [ by apply keeps_gets; apply _
          | apply same_dials_update_socket
          | by apply same_dials_emit ].
Qed.

Lemma same_dials_await id k : keeps same_dials (await id k).
Proof.
  apply frame_await; try apply _.
  - apply same_dials_emit.
  - intros. apply same_dials_update_socket.
  - apply same_dials_ws_close.
  - by intros f w.
Qed.

(** X5: while a connection promise exists, whatever the state of its socket
    (connecting, open, closing, closed or failed), [sendAudio] and [close]
    dial no socket and leave the promise in place: the adapter opens a
    connection only when it has none. *)
Theorem calls_reuse_the_connection w id buffer :
  _connectionPromise w = Some id ->
  let w1 := step (CallSendAudio buffer) w in
  let w2 := step CallClose w in
  (dialled (trace w1) = dialled (trace w)
   /\ length (sockets w1) = length (sockets w)
   /\ _connectionPromise w1 = Some id)
  /\ (dialled (trace w2) = dialled (trace w)
      /\ length (sockets w2) = length (sockets w)
      /\ _connectionPromise w2 = Some id).
Proof.
  intros Hp w1 w2. split.
  - assert (E : w1 = snd (await id (SendAudioK buffer) w)).
    { subst w1. unfold step, handle, sendAudio, _connection. js_unfold.
      simpl. by rewrite Hp. }
    rewrite E, <- Hp. apply same_dials_await.
  - assert (E : w2 = snd (await id CloseK w)).
    { subst w2. unfold step, handle, close. js_unfold. simpl. by rewrite Hp. }
    rewrite E, <- Hp. apply same_dials_await.
Qed.

Lemma calls_reuse_the_connection_witness :
  let w := run [CallSendAudio [Byte.x01]] (new_AssemblyAISTT sample_config 0) in
  dialled (trace (step (CallSendAudio [Byte.x02]) w)) = dialled (trace w)
  /\ length (sockets (step (CallSendAudio [Byte.x02]) w)) = length (sockets w)
  /\ _connectionPromise (step (CallSendAudio [Byte.x02]) w) = Some 0%nat.
Proof.
  refine (proj1 (calls_reuse_the_connection _ 0%nat [Byte.x02] _)). reflexivity.
Defined.

(** *** What every run of an instance maintains *)

#[local] Instance maintains_refl I : Reflexive (maintains I).
Proof. intros w H. exact H. Qed.
#[local] Instance maintains_trans I : Transitive (maintains I).
Proof. unfold maintains. intros a b c H1 H2 H. auto. Qed.

Lemma run_maintains I ls w :
  (forall l, keeps (maintains I) (handle l)) -> I w -> I (run ls w).
Proof.
  intros H. revert w. induction ls as [|l ls IH]; intros w Hw; [done|].
  rewrite run_cons. apply IH. by apply (H l w).
Qed.

Lemma dialled_console t lines : dialled (t ++ (Console <$> lines)) = dialled t.
Proof.
  unfold dialled. rewrite omap_app.
  assert (omap (fun e => match e with
                         | NewWebSocket id u a => Some (id, u, a)
                         | _ => None
                         end) (Console <$> lines) = []) as ->; [by induction lines|].
  apply app_nil_r.
Qed.

Lemma dials_as_emit c e : quiet e = true -> keeps (maintains (dials_as c)) (emit e).
Proof.
  intros He w [H1 H2]. split; [done|]. simpl. rewrite dialled_snoc.
  destruct e; try done; by rewrite app_nil_r.
Qed.

Lemma dials_as_frame c (f : World -> World) :
  (forall w, this (f w) = this w /\ trace (f w) = trace w) ->
  keeps (maintains (dials_as c)) (modify f).
Proof.
  intros Hf w [H1 H2]. destruct (Hf w) as [Ht Htr]. split; simpl; congruence.
Qed.

Lemma dials_as_update_socket c id f : keeps (maintains (dials_as c)) (update_socket id f).
Proof. by apply dials_as_frame. Qed.

Lemma dials_as_ws_close c id : keeps (maintains (dials_as c)) (ws_close id).
Proof.
  unfold ws_close. repeat keeps_step;
    first [ by apply keeps_gets; apply _
          | apply dials_as_update_socket
          | by apply dials_as_emit ].
Qed.

Lemma dials_as_connection c : keeps (maintains (dials_as c)) _connection.
Proof.
  intros w [H1 H2]. unfold _connection. js_unfold. simpl.
  destruct (_connectionPromise w); simpl; [done|].
  split; [done|]. simpl. rewrite dialled_snoc, H1. simpl.
  apply Forall_app. split; [done|]. by constructor.
Qed.

Lemma dials_as_on_message c data : keeps (maintains (dials_as c)) (on_message data).
Proof.
  intros w [H1 H2]. rewrite on_message_spec. split; [done|]. simpl.
  by rewrite dialled_console.
Qed.

Lemma dials_as_receiveEvents_next c : keeps (maintains (dials_as c)) receiveEvents_next.
Proof.
  intros w [H1 H2]. unfold receiveEvents_next, iterator_next. js_unfold. simpl.
  destruct (items (_bufferIterator w)); simpl.
  - by destruct (cancelled _).
  - split; [done|]. simpl. by rewrite dialled_snoc, app_nil_r.
Qed.

Lemma handle_dials_as c l : keeps (maintains (dials_as c)) (handle l).
Proof.
  assert (Hemit := dials_as_emit c).
  assert (Hsock : forall id f, (forall s, readyState (f s) = readyState s) ->
                    keeps (maintains (dials_as c)) (update_socket id f))
    by (intros; apply dials_as_update_socket).
  assert (Hclose := dials_as_ws_close c).
  assert (Htimers : forall f, keeps (maintains (dials_as c))
                                (modify (fun w => set_timers (f w) w)))
    by (intros; by apply dials_as_frame).
  assert (Hcancel : keeps (maintains (dials_as c)) buffer_cancel)
    by by apply dials_as_frame.
  destruct l; simpl; try unfold sendAudio; repeat keeps_step;
    first [ by apply keeps_gets; apply _
          | apply dials_as_connection
          | apply dials_as_receiveEvents_next
          | apply dials_as_on_message
          | apply dials_as_update_socket
          | by apply dials_as_frame
          | apply frame_await; first [apply _ | assumption]
          | apply frame_close; first [apply _ | assumption]
          | apply frame_on_open; first [apply _ | assumption]
          | apply frame_on_error; first [apply _ | assumption]
          | apply frame_on_timeout; first [apply _ | assumption] ].
Qed.

Lemma constructor_fields options env c :
  constructor options env = inr c -> apiKey c <> "" /\ sampleRate c <> 0.
Proof.
  rewrite constructor_cases.
  destruct (or_str _ _) as [k|]; [|done].
  destruct (truthy_str (Some k)) eqn:Hk; [|done]. intros [= <-]. simpl. split.
  - by apply truthy_str_Some.
  - unfold or_number. destruct (opt_sampleRate options) as [n|]; [|done].
    destruct (Z.eqb_spec n 0); done.
Qed.

(** X6: an instance the constructor returns has a non-empty API key and a
    sample rate that is not zero (an absent or zero option becomes 16000),
    and whatever happens to it afterwards, every socket it dials is dialled
    with the URL built from its own configuration and with that key as the
    [Authorization] header. *)
Theorem every_dial_uses_the_configuration options env c now ls :
  constructor options env = inr c ->
  apiKey c <> ""
  /\ sampleRate c <> 0
  /\ sampleRate c = or_number (opt_sampleRate options) 16000
  /\ Forall (fun d => d.1.2 = connection_url c /\ d.2 = apiKey c)
       (dialled (trace (run ls (new_AssemblyAISTT c now)))).
Proof.
  intros H. destruct (constructor_fields _ _ _ H) as [Hk Hr].
  split; [done|]. split; [done|]. split.
  - rewrite constructor_cases in H. destruct (or_str _ _) as [k|]; [|done].
    destruct (truthy_str (Some k)); [|done]. by injection H as <-.
  - apply (run_maintains (dials_as c) ls (new_AssemblyAISTT c now)).
    + apply handle_dials_as.
    + split; [done|]. constructor.
Qed.

Lemma every_dial_uses_the_configuration_witness :
  Forall (fun d => d.1.2 = "wss://streaming.assemblyai.com/v3/ws?sample_rate=16000&format_turns=true"
                   /\ d.2 = "key")
    (dialled (trace (run [CallSendAudio []; WsOpen 0; WsClosed 0; CallSendAudio []]
                         (new_AssemblyAISTT sample_config 0)))).
Proof.
  refine (proj2 (proj2 (proj2 (every_dial_uses_the_configuration
    {| opt_apiKey := Some "key"; opt_sampleRate := Some 0; opt_formatTurns := None |}
    ∅ sample_config 0 _ _)))).
  reflexivity.
Defined.

(** *** At most one live connection *)

Lemma one_live_frame (f : World -> World) :
  (forall w, sockets (f w) = sockets w
             /\ _connectionPromise (f w) = _connectionPromise w) ->
  keeps (maintains one_live) (modify f).
Proof.
  intros Hf w HJ id c. simpl. destruct (Hf w) as [-> ->]. apply HJ.
Qed.

Lemma one_live_emit e : keeps (maintains one_live) (emit e).
Proof. by apply one_live_frame. Qed.

Lemma one_live_update_socket id f :
  (forall c, readyState (f c) = readyState c) ->
  keeps (maintains one_live) (update_socket id f).
Proof.
  intros Hf w HJ id' c'. simpl. destruct (decide (id = id')) as [<-|Hne].
  - rewrite list_lookup_alter_eq. intros [c0 [Hc0 ->]]%fmap_Some.
    rewrite Hf. by apply HJ.
  - rewrite list_lookup_alter_ne by done. apply HJ.
Qed.

(** Changing the state of a socket that is not closed keeps the invariant. *)
Lemma one_live_set_state w id c r :
  one_live w -> sockets w !! id = Some c -> readyState c <> CLOSED ->
  one_live (set_sockets (alter (set_readyState r) id (sockets w)) w).
Proof.
  intros HJ Hs Hr id' c'. simpl. destruct (decide (id = id')) as [<-|Hne].
  - intros _ _. by apply (HJ id c).
  - rewrite list_lookup_alter_ne by done. apply HJ.
Qed.

Lemma one_live_ws_close id : keeps (maintains one_live) (ws_close id).
Proof.
  intros w HJ. unfold ws_close, socket_state, update_socket. js_unfold. simpl.
  destruct (sockets w !! id) as [c|] eqn:Hs; simpl; [|done].
  destruct (readyState c) eqn:Hr; simpl; try done;
    (apply (one_live_set_state w id c CLOSING); [done | done | congruence]).
Qed.

Lemma one_live_connection : keeps (maintains one_live) _connection.
Proof.
  intros w HJ. unfold _connection. js_unfold. simpl.
  destruct (_connectionPromise w) eqn:Hp; simpl; [done|].
  intros id c. simpl. intros Hl Hr.
  destruct (decide (id < length (sockets w))%nat) as [Hlt|Hge].
  - rewrite lookup_app_l in Hl by done.
    pose proof (HJ id c Hl Hr) as H. congruence.
  - apply lookup_lt_Some in Hl as Hlen. rewrite length_app in Hlen. simpl in Hlen.
    f_equal. lia.
Qed.

Lemma one_live_on_message data : keeps (maintains one_live) (on_message data).
Proof. intros w HJ. rewrite on_message_spec. exact HJ. Qed.

Lemma one_live_receiveEvents_next : keeps (maintains one_live) receiveEvents_next.
Proof.
  intros w HJ. unfold receiveEvents_next, iterator_next. js_unfold. simpl.
  destruct (items (_bufferIterator w)); simpl; [|exact HJ].
  destruct (cancelled _); exact HJ.
Qed.

Lemma one_live_frames :
  (forall e, quiet e = true -> keeps (maintains one_live) (emit e))
  /\ (forall id f, (forall c, readyState (f c) = readyState c) ->
        keeps (maintains one_live) (update_socket id f))
  /\ (forall id, keeps (maintains one_live) (ws_close id))
  /\ (forall f, keeps (maintains one_live) (modify (fun w => set_timers (f w) w)))
  /\ keeps (maintains one_live) buffer_cancel.
Proof.
  split; [intros; apply one_live_emit|].
  split; [apply one_live_update_socket|].
  split; [apply one_live_ws_close|].
  split; [intros; by apply one_live_frame | by apply one_live_frame].
Qed.

(** The socket library moves a socket that is not closed to another state
    and calls a handler that keeps the invariant. *)
Lemma one_live_library_event id r (guard : ReadyState -> bool) (k : M unit) w :
  (forall s, guard s = true -> s <> CLOSED) ->
  keeps (maintains one_live) k ->
  one_live w ->
  one_live (snd ((if guard (default CLOSED (readyState <$> sockets w !! id))
                  then update_socket id (set_readyState r);; k
                  else ret tt) w)).
Proof.
  intros Hg Hk HJ.
  destruct (guard _) eqn:Hgs; [|exact HJ].
  apply Hg in Hgs. destruct (sockets w !! id) as [c|] eqn:Hs; [|done].
  simpl in Hgs. unfold update_socket. js_unfold. simpl.
  apply Hk. by apply (one_live_set_state w id c r).
Qed.

Lemma handle_one_live l : keeps (maintains one_live) (handle l).
Proof.
  destruct one_live_frames as (Hemit & Hsock & Hclose & Htimers & Hcancel).
  destruct l; simpl.
  - unfold sendAudio. repeat keeps_step;
      first [ apply one_live_connection
            | apply frame_await; first [apply _ | assumption] ].
  - apply frame_close; first [apply _ | assumption].
  - repeat keeps_step; apply one_live_receiveEvents_next.
  - intros w HJ. unfold socket_state. js_unfold.
    apply (one_live_library_event id OPEN (fun s => is_state s CONNECTING)); try done.
    + by intros [].
    + apply frame_on_open; first [apply _ | assumption].
  - repeat keeps_step;
      first [ by apply keeps_gets; apply _
            | by apply one_live_frame
            | apply one_live_on_message ].
  - intros w HJ. unfold socket_state. js_unfold.
    apply (one_live_library_event id CLOSING
             (fun s => bool_decide (is_Some (sockets w !! id)) && negb (is_state s CLOSED)));
      try done.
    + intros [] [_ ?]%andb_prop; done.
    + apply frame_on_error; first [apply _ | assumption].
  - intros w HJ. unfold socket_state, update_socket, on_close. js_unfold. simpl.
    destruct (sockets w !! id) as [c|] eqn:Hs; simpl.
    + destruct (is_state (readyState c) CLOSED) eqn:Hc; simpl; [exact HJ|].
      assert (Hr : readyState c <> CLOSED) by (by destruct (readyState c)).
      pose proof (HJ id c Hs Hr) as Hp.
      intros id' c'. simpl. destruct (decide (id = id')) as [<-|Hne].
      * rewrite list_lookup_alter_eq, Hs. simpl. by intros [= <-].
      * rewrite list_lookup_alter_ne by done. intros Hl Hr'.
        pose proof (HJ id' c' Hl Hr'). congruence.
    + exact HJ.
  - repeat keeps_step;
      first [ by apply keeps_gets; apply _
            | apply frame_on_timeout; first [apply _ | assumption] ].
Qed.

(** X7: whatever happens to an instance, at most one of the sockets it has
    dialled is not closed, and that socket is the one its connection promise
    wraps: a new socket is dialled only after the previous one has closed. *)
Theorem at_most_one_live_connection ls c now id1 c1 id2 c2 :
  let w := run ls (new_AssemblyAISTT c now) in
  sockets w !! id1 = Some c1 -> readyState c1 <> CLOSED ->
  sockets w !! id2 = Some c2 -> readyState c2 <> CLOSED ->
  id1 = id2 /\ _connectionPromise w = Some id1.
Proof.
  intros w H1 Hr1 H2 Hr2.
  assert (HJ : one_live w).
  { apply run_maintains; [apply handle_one_live|]. by intros id s. }
  pose proof (HJ id1 c1 H1 Hr1). pose proof (HJ id2 c2 H2 Hr2).
  split; [congruence | done].
Qed.

Lemma at_most_one_live_connection_witness :
  let w := run [CallSendAudio []; WsOpen 0; CallClose; GraceTimeout 0; WsClosed 0;
                CallSendAudio []; WsOpen 1] (new_AssemblyAISTT sample_config 0) in
  1%nat = 1%nat /\ _connectionPromise w = Some 1%nat.
Proof.
  refine (at_most_one_live_connection _ sample_config 0 1%nat
    {| url := connection_url sample_config; authorization := "key";
       readyState := OPEN; promise := Fulfilled; waiters := [] |} 1%nat
    {| url := connection_url sample_config; authorization := "key";
       readyState := OPEN; promise := Fulfilled; waiters := [] |} _ _ _ _);
    first [reflexivity | discriminate].
Defined.

(** *** More on the message handler *)

Lemma falsy_stringifies f : truthy f = false -> stringifies f = true.
Proof. by destruct f as [|[]]. Qed.

(** X8: an unformatted Turn message whose transcript can be converted to a
    string for the console line (any string, number, boolean, null or a
    missing transcript) always puts exactly one [stt_chunk] on the queue,
    also when the transcript is empty or missing (only final transcripts are
    filtered for emptiness); and every event the handler puts on the queue
    carries the transcript of its message unchanged and the time at which
    the message was handled. *)
Theorem partial_transcripts_are_never_filtered data w :
  (unformatted_turn data = true ->
   stringifies (field_of data "transcript") = true ->
     emitted data w =
       [{| type := stt_chunk; transcript := field_of data "transcript";
           ts := clock w |}])
  /\ (forall ev, ev ∈ emitted data w ->
        transcript ev = field_of data "transcript" /\ ts ev = clock w).
Proof.
  rewrite emitted_normalize. unfold normalize. split.
  - intros Hu Hs. unfold unformatted_turn, formatted_turn, loggable in *.
    apply andb_prop in Hu as [-> Hf]. apply negb_true_iff in Hf.
    by rewrite Hs, (falsy_stringifies _ Hf), Hf.
  - intros ev. destruct (negb (loggable data)); [by intros ?%elem_of_nil|].
    destruct (formatted_turn data).
    + destruct (truthy _); [|by intros ?%elem_of_nil].
      by intros ->%list_elem_of_singleton.
    + destruct (unformatted_turn data); [|by intros ?%elem_of_nil].
      by intros ->%list_elem_of_singleton.
Qed.

Lemma partial_transcripts_are_never_filtered_witness :
  emitted (Json (JObj [("type", JStr "Turn"); ("transcript", JStr "")]))
          (new_AssemblyAISTT sample_config 9)
  = [{| type := stt_chunk; transcript := Val (JStr ""); ts := 9 |}].
Proof.
  refine (proj1 (partial_transcripts_are_never_filtered _ _) _ _); reflexivity.
Defined.

Lemma rejections_console t lines : rejections (t ++ (Console <$> lines)) = rejections t.
Proof.
  unfold rejections. rewrite omap_app.
  assert (omap (fun e => match e with
                         | Settled c (inl x) => Some (c, x)
                         | _ => None
                         end) (Console <$> lines) = []) as ->; [by induction lines|].
  apply app_nil_r.
Qed.

(** X9: no exception escapes the message handler, whatever the frame (its
    [try]/[catch] encloses the whole body), and the handler stays inside the
    queue and the console: it sends nothing to the vendor, dials and closes
    no socket, leaves the connection promise, the sockets and the timers as
    they are, settles no call, hands nothing to the consumer and does not
    cancel the queue. *)
Theorem message_handling_is_contained data w :
  let w' := snd (on_message data w) in
  fst (on_message data w) = inr tt
  /\ sockets w' = sockets w
  /\ _connectionPromise w' = _connectionPromise w
  /\ timers w' = timers w
  /\ wire (trace w') = wire (trace w)
  /\ rejections (trace w') = rejections (trace w)
  /\ yielded (trace w') = yielded (trace w)
  /\ cancelled (_bufferIterator w') = cancelled (_bufferIterator w).
Proof.
  intros w'. subst w'. rewrite on_message_spec. simpl.
  repeat split.
  - by rewrite wire_app, wire_console, app_nil_r.
  - apply rejections_console.
  - unfold yielded. rewrite omap_app.
    fold (yielded (Console <$> logged data)). by rewrite yielded_console, app_nil_r.
Qed.

(** *** Calls made while the socket is connecting *)

Lemma await_unsettled w id c k :
  sockets w !! id = Some c -> promise c = Unsettled ->
  await id k w =
    (inr tt, set_sockets (alter (fun c => set_waiters (waiters c ++ [k]) c) id (sockets w)) w).
Proof.
  intros Hs Hp. unfold await, update_socket. js_unfold. simpl.
  rewrite Hs. simpl. by rewrite Hp.
Qed.

Lemma sendAudio_with_promise w id buffer :
  _connectionPromise w = Some id ->
  step (CallSendAudio buffer) w = snd (await id (SendAudioK buffer) w).
Proof.
  intros Hp. unfold step, handle, sendAudio, _connection. js_unfold. simpl.
  by rewrite Hp.
Qed.

Lemma close_with_promise w id :
  _connectionPromise w = Some id -> step CallClose w = snd (await id CloseK w).
Proof.
  intros Hp. unfold step, handle, close. js_unfold. simpl. by rewrite Hp.
Qed.

(** Audio sent while the socket is connecting queues up behind the promise,
    in call order. *)
Lemma run_audio_while_connecting bs w id c :
  _connectionPromise w = Some id ->
  sockets w !! id = Some c -> promise c = Unsettled ->
  let w' := run (CallSendAudio <$> bs) w in
  trace w' = trace w
  /\ timers w' = timers w
  /\ _connectionPromise w' = Some id
  /\ sockets w' !! id = Some (set_waiters (waiters c ++ (SendAudioK <$> bs)) c).
Proof.
  revert w c. induction bs as [|b bs IH]; intros w c Hp Hs Hu w'; subst w'.
  - simpl. rewrite app_nil_r. by destruct c.
  - rewrite fmap_cons, run_cons.
    rewrite (sendAudio_with_promise w id b Hp), (await_unsettled w id c _ Hs Hu).
    simpl snd. set (w1 := set_sockets _ w).
    assert (Hs1 : sockets w1 !! id = Some (set_waiters (waiters c ++ [SendAudioK b]) c)).
    { subst w1. simpl. by rewrite list_lookup_alter_eq, Hs. }
    destruct (IH w1 _ Hp Hs1 Hu) as (H1 & H2 & H3 & H4).
    rewrite H1, H2, H3, H4. repeat split; try done.
    simpl. by rewrite <- app_assoc.
Qed.

Lemma step_open w id c :
  sockets w !! id = Some c -> readyState c = CONNECTING -> promise c = Unsettled ->
  step (WsOpen id) w =
    snd (run_waiters id (inr tt) (waiters c)
           (set_sockets
              (alter (fun c => set_waiters [] (set_promise Fulfilled c)) id
                 (alter (set_readyState OPEN) id (sockets w))) w)).
Proof.
  intros Hs Hr Hp. destruct w as [cfg q p ss tm ck tr]. simpl in *.
  unfold step, handle, on_open, settle_promise, socket_state, update_socket.
  js_unfold. simpl. rewrite Hs. simpl. rewrite Hr. simpl.
  rewrite list_lookup_alter_eq, Hs. simpl. destruct c as [u a r pr ks].
  simpl in *. subst pr. simpl.
  by destruct (run_waiters id (inr ()) ks _) as [[] ?].
Qed.

Lemma resume_audio_open w id c buffer :
  sockets w !! id = Some c -> readyState c = OPEN ->
  resume id (SendAudioK buffer) (inr tt) w = (inr tt, add_traces (audio_effects id buffer) w).
Proof.
  intros Hs Hr. destruct w as [cfg q p ss tm ck tr]. simpl in *.
  unfold resume, ws_send, socket_state. js_unfold. simpl. rewrite Hs. simpl.
  rewrite Hr. simpl. unfold add_traces, add_trace. simpl. by rewrite <- app_assoc.
Qed.

Lemma resume_close_open w id c :
  sockets w !! id = Some c -> readyState c = OPEN ->
  resume id CloseK (inr tt) w =
    (inr tt, set_timers (timers w ++ [id])
               (add_traces [Console DebugSendingTerminate;
                            WsSend id (Text terminate_message);
                            SetTimeout 100 id] w)).
Proof.
  intros Hs Hr. destruct w as [cfg q p ss tm ck tr]. simpl in *.
  unfold resume, ws_send, socket_state. js_unfold. simpl. rewrite Hs. simpl.
  rewrite Hr. simpl. unfold set_timers, add_traces, add_trace. simpl.
  by rewrite <- !app_assoc.
Qed.

Lemma add_traces_app es1 es2 w : add_traces es2 (add_traces es1 w) = add_traces (es1 ++ es2) w.
Proof. destruct w. unfold add_traces. simpl. by rewrite <- app_assoc. Qed.

Lemma run_waiters_cons id o k ks w :
  run_waiters id o (k :: ks) w =
    match resume id k o w with
    | (inr _, w') => run_waiters id o ks w'
    | (inl e, w') => (inl e, w')
    end.
Proof. reflexivity. Qed.

(** When the socket opens, the buffers that were waiting go out in the order
    of the calls. *)
Lemma run_waiters_audio bs w id c :
  sockets w !! id = Some c -> readyState c = OPEN ->
  run_waiters id (inr tt) (SendAudioK <$> bs) w =
    (inr tt, add_traces (flat_map (audio_effects id) bs) w).
Proof.
  revert w. induction bs as [|b bs IH]; intros w Hs Hr.
  - simpl. by rewrite add_traces_nil.
  - rewrite fmap_cons, run_waiters_cons, (resume_audio_open w id c b Hs Hr).
    rewrite IH by done. by rewrite add_traces_app.
Qed.

Lemma run_waiters_app id o ks1 ks2 w :
  run_waiters id o (ks1 ++ ks2) w =
    match run_waiters id o ks1 w with
    | (inr _, w') => run_waiters id o ks2 w'
    | (inl e, w') => (inl e, w')
    end.
Proof.
  revert w. induction ks1 as [|k ks1 IH]; intros w; [done|].
  rewrite <- app_comm_cons, !run_waiters_cons.
  destruct (resume id k o w) as [[e|[]] w1]; [done|]. apply IH.
Qed.

(** X10: audio sent before the connection is established dials one socket
    and waits for it; when the socket opens the buffers go out in the order
    of the calls, each call resolving, and a [close()] that was called after
    them sends its terminate message only after the last buffer. *)
Theorem queued_audio_goes_out_in_order_before_close w b bs :
  _connectionPromise w = None ->
  let id := length (sockets w) in
  trace (run ((CallSendAudio <$> (b :: bs)) ++ [CallClose; WsOpen id]) w) =
    trace w
    ++ [NewWebSocket id (connection_url (this w)) (apiKey (this w))]
    ++ flat_map (audio_effects id) (b :: bs)
    ++ [Console DebugSendingTerminate; WsSend id (Text terminate_message);
        SetTimeout 100 id].
Proof.
  intros Hp id. rewrite run_app, fmap_cons, (run_cons (CallSendAudio b)).
  rewrite (sendAudio_on_null w b Hp). fold id.
  set (c0 := {| url := connection_url (this w); authorization := apiKey (this w);
                readyState := CONNECTING; promise := Unsettled;
                waiters := [SendAudioK b] |}).
  set (w1 := set_connectionPromise _ _).
  assert (Hs1 : sockets w1 !! id = Some c0).
  { subst w1. simpl. by apply list_lookup_middle. }
  destruct (run_audio_while_connecting bs w1 id c0 eq_refl Hs1 eq_refl)
    as (Ht2 & _ & Hp2 & Hs2).
  set (w2 := run (CallSendAudio <$> bs) w1) in *.
  change (run [CallClose; WsOpen id] w2) with (step (WsOpen id) (step CallClose w2)).
  rewrite (close_with_promise w2 id Hp2), (await_unsettled w2 id _ _ Hs2 eq_refl).
  simpl snd. set (w3 := set_sockets _ w2).
  assert (Hs3 : sockets w3 !! id =
            Some (set_waiters ((SendAudioK <$> (b :: bs)) ++ [CloseK]) c0)).
  { subst w3. simpl. by rewrite list_lookup_alter_eq, Hs2. }
  rewrite (step_open w3 id _ Hs3 eq_refl eq_refl).
  set (w4 := set_sockets _ w3).
  assert (Hs4 : exists c4, sockets w4 !! id = Some c4 /\ readyState c4 = OPEN).
  { subst w4. unfold set_sockets at 1. cbn [sockets].
    rewrite !list_lookup_alter_eq, Hs3. simpl. eauto. }
  destruct Hs4 as (c4 & Hs4 & Hr4).
  cbn [waiters set_waiters]. rewrite run_waiters_app.
  rewrite (run_waiters_audio (b :: bs) w4 id c4 Hs4 Hr4).
  rewrite run_waiters_cons, (resume_close_open _ id c4) by done.
  simpl. subst w3. simpl. rewrite Ht2. subst w1. simpl.
  rewrite <- !app_assoc. reflexivity.
Qed.

Lemma queued_audio_goes_out_in_order_before_close_witness :
  trace (run [CallSendAudio [Byte.x01]; CallSendAudio [Byte.x02]; CallClose; WsOpen 0]
             (new_AssemblyAISTT sample_config 0)) =
    [NewWebSocket 0 (connection_url sample_config) "key";
     WsSend 0 (Binary [Byte.x01]); Settled (SendAudioCall [Byte.x01]) (inr tt);
     WsSend 0 (Binary [Byte.x02]); Settled (SendAudioCall [Byte.x02]) (inr tt);
     Console DebugSendingTerminate; WsSend 0 (Text terminate_message);
     SetTimeout 100 0].
Proof.
  refine (queued_audio_goes_out_in_order_before_close
            (new_AssemblyAISTT sample_config 0) [Byte.x01] [[Byte.x02]] _).
  reflexivity.
Defined.

(** *** A connection that fails before it opens *)

Lemma step_error w id c e :
  sockets w !! id = Some c -> readyState c <> CLOSED ->
  step (WsError id e) w =
    snd (on_error id e
           (set_sockets (alter (set_readyState CLOSING) id (sockets w)) w)).
Proof.
  intros Hs Hr. destruct w as [cfg q p ss tm ck tr]. simpl in *.
  unfold step, handle, socket_state, update_socket. js_unfold. simpl.
  rewrite Hs. simpl. destruct (readyState c); try done;
    by destruct (on_error _ _ _) as [[] ?].
Qed.

Lemma await_rejected w id c e k :
  sockets w !! id = Some c -> promise c = Rejected e ->
  await id k w = (inr tt, add_trace (Settled (call_of k) (inl e)) w).
Proof.
  intros Hs Hp. unfold await. js_unfold. simpl. rewrite Hs. simpl. rewrite Hp.
  by destruct k.
Qed.

(** X11: when the socket fails while the connection is being established,
    every call waiting for the connection is rejected with the failure, in
    the order the calls were made, and the queue is cancelled; until the
    socket's "close" event arrives, each further [sendAudio] or [close] is
    rejected with the same failure at once, without dialling or sending
    anything. *)
Theorem connection_failure_rejects_calls w id c e buffer :
  _connectionPromise w = Some id ->
  sockets w !! id = Some c -> readyState c = CONNECTING -> promise c = Unsettled ->
  let w1 := step (WsError id e) w in
  trace w1 = trace w ++ ((fun k => Settled (call_of k) (inl e)) <$> waiters c)
  /\ cancelled (_bufferIterator w1) = true
  /\ step (CallSendAudio buffer) w1 =
       add_trace (Settled (SendAudioCall buffer) (inl e)) w1
  /\ step CallClose w1 = add_trace (Settled CloseCall (inl e)) w1.
Proof.
  intros Hp Hs Hr Hu w1.
  assert (Hne : readyState c <> CLOSED) by congruence.
  set (w0 := set_sockets (alter (set_readyState CLOSING) id (sockets w)) w).
  assert (Hs0 : sockets w0 !! id = Some (set_readyState CLOSING c)).
  { subst w0. simpl. by rewrite list_lookup_alter_eq, Hs. }
  assert (E1 : w1 = snd (on_error id e w0)) by apply (step_error w id c e Hs Hne).
  rewrite (on_error_unsettled id e w0 _ Hs0 Hu) in E1. simpl in E1.
  assert (Hp1 : _connectionPromise w1 = Some id) by by rewrite E1.
  assert (Hs1 : exists c1, sockets w1 !! id = Some c1 /\ promise c1 = Rejected e).
  { rewrite E1. simpl. rewrite !list_lookup_alter_eq, Hs. simpl. eauto. }
  destruct Hs1 as (c1 & Hs1 & Hr1).
  split; [by rewrite E1|]. split; [by rewrite E1|]. split.
  - rewrite (sendAudio_with_promise w1 id buffer Hp1).
    by rewrite (await_rejected w1 id c1 e _ Hs1 Hr1).
  - rewrite (close_with_promise w1 id Hp1).
    by rewrite (await_rejected w1 id c1 e _ Hs1 Hr1).
Qed.

Lemma connection_failure_rejects_calls_witness :
  let w := run [CallSendAudio [Byte.x01]; CallClose] (new_AssemblyAISTT sample_config 0) in
  let e := SocketError "ECONNREFUSED" in
  let w1 := step (WsError 0 e) w in
  trace w1 = trace w ++ [Settled (SendAudioCall [Byte.x01]) (inl e);
                         Settled CloseCall (inl e)]
  /\ cancelled (_bufferIterator w1) = true
  /\ step (CallSendAudio [Byte.x02]) w1 =
       add_trace (Settled (SendAudioCall [Byte.x02]) (inl e)) w1
  /\ step CallClose w1 = add_trace (Settled CloseCall (inl e)) w1.
Proof.
  refine (connection_failure_rejects_calls _ 0%nat
    {| url := connection_url sample_config; authorization := "key";
       readyState := CONNECTING; promise := Unsettled;
       waiters := [SendAudioK [Byte.x01]; CloseK] |}
    (SocketError "ECONNREFUSED") [Byte.x02] _ _ _ _); reflexivity.
Defined.

(** *** A grace timer that fires late *)

Lemma set_sockets_set_sockets l1 l2 w : set_sockets l2 (set_sockets l1 w) = set_sockets l2 w.
Proof. by destruct w. Qed.

(** X12: if the vendor closes the socket while [close()] is still waiting out
    its grace period and audio sent meanwhile has opened a new connection,
    the timer of that [close()] closes nothing: the new connection stays
    open and remains the current one, and the only traffic is the terminate
    message on the old socket and the audio on the new one. *)
Theorem late_grace_timer_spares_the_new_connection w id c buffer :
  _connectionPromise w = Some id ->
  sockets w !! id = Some c -> readyState c = OPEN -> promise c = Fulfilled ->
  let id' := length (sockets w) in
  let w' := run [CallClose; WsClosed id; CallSendAudio buffer; WsOpen id';
                 GraceTimeout id] w in
  socket_in w' id' [OPEN] = true
  /\ socket_in w' id [CLOSED] = true
  /\ _connectionPromise w' = Some id'
  /\ wire (trace w') =
       wire (trace w) ++
       [WsSend id (Text terminate_message);
        NewWebSocket id' (connection_url (this w)) (apiKey (this w));
        WsSend id' (Binary buffer)].
Proof.
  intros Hp Hs Hr Hf id' w'. subst w'.
  assert (Hlt : (id < length (sockets w))%nat) by by eapply lookup_lt_Some.
  rewrite !run_cons. simpl run.
  rewrite (close_on_open w id c Hp Hs Hr Hf).
  set (w1 := set_timers _ _).
  assert (Hs1 : sockets w1 !! id = Some c) by done.
  rewrite (closed_event w1 id c Hs1) by congruence.
  set (w2 := set_connectionPromise None _).
  assert (Hlen2 : length (sockets w2) = length (sockets w)).
  { subst w2. simpl. apply length_alter. }
  rewrite (sendAudio_on_null w2 buffer eq_refl). rewrite Hlen2. fold id'.
  set (c0 := {| url := connection_url (this w2); authorization := apiKey (this w2);
                readyState := CONNECTING; promise := Unsettled;
                waiters := [SendAudioK buffer] |}).
  set (w3 := set_connectionPromise (Some id') _).
  assert (Hs3 : sockets w3 !! id' = Some c0).
  { subst w3. apply (list_lookup_middle (sockets w2) [] c0 id'). by rewrite Hlen2. }
  rewrite (step_open w3 id' c0 Hs3 eq_refl eq_refl).
  cbn [waiters c0]. rewrite (run_waiters_cons id' (inr tt) (SendAudioK buffer) []).
  set (w4 := set_sockets _ w3).
  assert (Hs4 : sockets w4 !! id' =
                Some (set_waiters [] (set_promise Fulfilled (set_readyState OPEN c0)))).
  { subst w4. unfold set_sockets at 1. cbn [sockets].
    by rewrite !list_lookup_alter_eq, Hs3. }
  rewrite (resume_audio_open w4 id' _ buffer Hs4 eq_refl). simpl snd.
  set (w5 := add_traces _ w4).
  assert (Hs5 : sockets w5 !! id = Some (set_readyState CLOSED c)).
  { subst w5 w4 w3 w2. simpl.
    rewrite !list_lookup_alter_ne by lia.
    rewrite lookup_app_l by (rewrite length_alter; done).
    by rewrite list_lookup_alter_eq, Hs. }
  assert (Ht5 : elem_nat id (timers w5) = true).
  { subst w5 w4 w3 w2 w1. simpl. apply elem_nat_snoc. }
  rewrite (timeout_on_closing w5 id _ Ht5 Hs5) by (by right).
  set (w6 := add_trace _ (set_timers _ w5)).
  assert (E6 : sockets w6 = sockets w5) by done.
  assert (E5 : sockets w5 = sockets w4) by done.
  split; [|split; [|split]].
  - unfold socket_in. by rewrite E6, E5, Hs4.
  - unfold socket_in. by rewrite E6, Hs5.
  - done.
  - subst w6 w5 w4 w3 w2 w1. simpl.
    rewrite !wire_app. simpl. by rewrite <- !app_assoc.
Qed.

Lemma late_grace_timer_spares_the_new_connection_witness :
  let w := run [CallSendAudio []; WsOpen 0] (new_AssemblyAISTT sample_config 0) in
  let w' := run [CallClose; WsClosed 0; CallSendAudio [Byte.x01]; WsOpen 1;
                 GraceTimeout 0] w in
  socket_in w' 1 [OPEN] = true
  /\ socket_in w' 0 [CLOSED] = true
  /\ _connectionPromise w' = Some 1%nat
  /\ wire (trace w') =
       wire (trace w) ++
       [WsSend 0 (Text terminate_message);
        NewWebSocket 1 (connection_url sample_config) "key";
        WsSend 1 (Binary [Byte.x01])].
Proof.
  refine (late_grace_timer_spares_the_new_connection
    (run [CallSendAudio []; WsOpen 0] (new_AssemblyAISTT sample_config 0)) 0%nat
    {| url := connection_url sample_config; authorization := "key";
       readyState := OPEN; promise := Fulfilled; waiters := [] |} [Byte.x01] _ _ _ _);
    reflexivity.
Defined.

(** *** Audio on an open connection *)

Lemma await_fulfilled w id c k :
  sockets w !! id = Some c -> promise c = Fulfilled ->
  await id k w = resume id k (inr tt) w.
Proof.
  intros Hs Hp. unfold await. js_unfold. simpl. rewrite Hs. simpl. by rewrite Hp.
Qed.

(** X13: on an open connection each [sendAudio] writes its buffer to the
    socket at once and resolves, so a sequence of calls puts the buffers on
    the wire in the order of the calls, with nothing held back and nothing
    else sent. *)
Theorem audio_is_forwarded_at_once_in_order w id c bs :
  _connectionPromise w = Some id ->
  sockets w !! id = Some c -> readyState c = OPEN -> promise c = Fulfilled ->
  run (CallSendAudio <$> bs) w = add_traces (flat_map (audio_effects id) bs) w.
Proof.
  intros Hp Hs Hr Hf. revert w Hp Hs. induction bs as [|b bs IH]; intros w Hp Hs.
  - simpl. by rewrite add_traces_nil.
  - rewrite fmap_cons, run_cons.
    rewrite (sendAudio_with_promise w id b Hp), (await_fulfilled w id c _ Hs Hf).
    rewrite (resume_audio_open w id c b Hs Hr). simpl snd.
    rewrite IH by done. by rewrite add_traces_app.
Qed.

Lemma audio_is_forwarded_at_once_in_order_witness :
  let w := run [CallSendAudio []; WsOpen 0] (new_AssemblyAISTT sample_config 0) in
  run (CallSendAudio <$> [[Byte.x01]; [Byte.x02]]) w =
    add_traces (flat_map (audio_effects 0) [[Byte.x01]; [Byte.x02]]) w.
Proof.
  refine (audio_is_forwarded_at_once_in_order _ 0%nat
    {| url := connection_url sample_config; authorization := "key";
       readyState := OPEN; promise := Fulfilled; waiters := [] |} _ _ _ _ _);
    reflexivity.
Defined.
